(** * SOL: near-optimal linear bounds (SOL/bounding.py)

    A shallow embedding of [OptimalLinearBounder] and of its methods.
    numpy's float64 arrays are read as lists of real numbers: [+], [-], [*],
    [/], [sqrt], [minimum], [max] are the operations of [R], and the places
    where the Python code leaves the reals (a division by zero, a fractional
    power of a negative number) are followed up to the exception they end
    in.  Rounding and overflow are not part of this reading; the one place
    where rounding changes an integer, the number of cells of the sampler,
    is followed in binary64 at the end of the definitions.  Arrays that are
    changed in place are followed where the change can reach the points:
    the negation of what the target function and the gradient return. *)

From Stdlib Require Import String Reals Lra Lia ZArith List Bool.
From Stdlib Require Floats.
Import ListNotations.
Local Open Scope R_scope.

Set Implicit Arguments.

(** ** Outcomes of a call *)

(** The exceptions the module can raise, named after the assertion message
    or the Python exception. *)
Inductive exn : Type :=
| Assert_initial_number_of_points     (* __init__: initial_number_of_points > 2 *)
| Assert_unknown_discrete_solver      (* 'Unknown discrete solver' *)
| Assert_not_enough_points            (* 'Not enough points to properly fill the region' *)
| Assert_G_not_implemented            (* 'Bounding G for dim > 1 is not implemented' *)
| Assert_need_dim_plus_one            (* 'Need at least dim + 1 point' *)
| Assert_positive_width               (* 'Bounds must have positive width' *)
| ZeroDivisionError                   (* 1. / n with n = 0 *)
| OverflowError                       (* math.ceil of an infinity *)
| ValueError                          (* math.ceil of a NaN, shape mismatch, max of an empty array *)
| IndexError.                         (* result[-1] on an empty answer of the solver *)

(** A call returns, raises, or is still in its [while True] loop when the
    iteration budget of the model is used up. *)
Inductive res (A : Type) : Type :=
| Ret (a : A)
| Raise (e : exn)
| Running.

Arguments Ret {A} a.
Arguments Raise {A} e.
Arguments Running {A}.

Definition bind {A B : Type} (m : res A) (k : A -> res B) : res B :=
  match m with
  | Ret a => k a
  | Raise e => Raise e
  | Running => Running
  end.

Notation "x <- m ;; k" := (bind m (fun x => k))
  (at level 61, m at next level, right associativity).
Notation "'assert' b 'else' e ;; k" := (if b then k else Raise e)
  (at level 61, b at next level, e at next level, right associativity).

(** ** Array arithmetic *)

Definition Rltb (x y : R) : bool := if Rlt_dec x y then true else false.

(** [math.ceil] on a real number. *)
Definition ceil (x : R) : Z := (1 - up (- x))%Z.

Definition sum (l : list R) : R := fold_right Rplus 0 l.
Definition prod (l : list R) : R := fold_right Rmult 1 l.

Fixpoint zipWith {A B C : Type} (f : A -> B -> C) (l : list A) (m : list B) : list C :=
  match l, m with
  | a :: l', b :: m' => f a b :: zipWith f l' m'
  | _, _ => []
  end.

(** [np.matmul] of two vectors. *)
Definition dot (u v : list R) : R := sum (zipWith Rmult u v).

(** [np.linalg.norm] of a vector. *)
Definition norm (v : list R) : R := sqrt (sum (map (fun x => x * x) v)).

(** [np.max] of a non-empty array. *)
Definition maximum (l : list R) : res R :=
  match l with
  | [] => Raise ValueError
  | x :: l' => Ret (fold_left Rmax l' x)
  end.

(** [np.linspace(start, stop, num)] for [num > 1]. *)
Definition linspace (start stop : R) (num : nat) : list R :=
  map (fun j => start + INR j * ((stop - start) / (INR num - 1))) (seq 0 num).

(** C-order enumeration of a product of grids, first axis slowest. *)
Fixpoint cartesian (grids : list (list R)) : list (list R) :=
  match grids with
  | [] => [[]]
  | g :: gs => flat_map (fun a => map (cons a) (cartesian gs)) g
  end.

(** The rows of the transposed array of flattened [np.meshgrid] outputs:
    one point per grid node.  With the default xy indexing the second axis
    is the slowest and the first axis the second slowest. *)
Definition meshgrid_points (grids : list (list R)) : list (list R) :=
  match grids with
  | g1 :: g2 :: rest =>
      flat_map (fun b =>
        flat_map (fun a => map (fun t => a :: b :: t) (cartesian rest)) g1) g2
  | _ => cartesian grids
  end.

(** ** The bounder *)

(** A region is the array [bound] of shape [n, 2]: one [(lo, hi)] per axis. *)
Definition region := list (R * R).

Definition width (b : R * R) : R := snd b - fst b.

(** The interface of a discrete solver:
    [solve(points_shifted, values, eps) -> coefficients]. *)
Definition solver := list (list R) -> list R -> R -> list R.

(** The target function is called on the coordinate arrays of a batch of
    points.  It either computes a new array from them, or hands back the
    very array it was given for one of its arguments (argument [i], counted
    from 0), as [lambda x: x] does; the two differ once the result is
    negated in place. *)
Inductive target_callable : Type :=
| Computes (f : list R -> R)
| ReturnsArgument (i : nat).

(** The value the target returns at one point. *)
Definition call (c : target_callable) : list R -> R :=
  match c with
  | Computes f => f
  | ReturnsArgument i => fun p => nth i p 0
  end.

Coercion call : target_callable >-> Funclass.

(** The gradient is called the same way and returns one row per point.  It
    either computes a new array, or returns a one-column view of one of its
    arguments, as [lambda x: x[:, None]] does. *)
Inductive gradient_callable : Type :=
| ComputesGradient (g : list R -> list R)
| ReturnsArgumentColumn (i : nat).

(** The gradient row returned at one point. *)
Definition call_gradient (c : gradient_callable) : list R -> list R :=
  match c with
  | ComputesGradient g => g
  | ReturnsArgumentColumn i => fun p => [nth i p 0]
  end.

Coercion call_gradient : gradient_callable >-> Funclass.

Record OptimalLinearBounder : Type := {
  target_function : target_callable;
  gradient : gradient_callable;
  eps : R;
  initial_number_of_points : Z;
  L1 : R;
  L2 : R;
  discrete_solver : solver
}.

(** [__init__].  The registry [BOUNDING_METHOD_NAME_TO_FUNCTION] lives in
    SOL.discrete_bounding and is taken as a parameter. *)
Definition __init__ (BOUNDING_METHOD_NAME_TO_FUNCTION : string -> option solver)
    (target_function : target_callable) (gradient : gradient_callable) (L1 L2 : R)
    (eps : R) (initial_npoints : Z) (solver_name : string) : res OptimalLinearBounder :=
  assert (2 <? initial_npoints)%Z else Assert_initial_number_of_points ;;
  match BOUNDING_METHOD_NAME_TO_FUNCTION solver_name with
  | None => Raise Assert_unknown_discrete_solver
  | Some s =>
      Ret {| target_function := target_function; gradient := gradient;
             eps := eps; initial_number_of_points := initial_npoints;
             L1 := L1; L2 := L2; discrete_solver := s |}
  end.

(** *** The regular grid sampler *)

(** The value of [reference_cell_side], a float64 that may be infinite or
    NaN. *)
Inductive float_value : Type :=
| Finite (r : R)
| Infinite
| NaN.

(** [(region_volume / sample_size) ** (1. / n)] for [n >= 1], with the
    division and the power taken exact; numbers too large for a float are
    not followed. *)
Definition reference_cell_side (n : nat) (region_volume : R) (sample_size : Z) : float_value :=
  if (sample_size =? 0)%Z then
    if Req_dec_T region_volume 0 then NaN else Infinite
  else
    let q := region_volume / IZR sample_size in
    match n with
    | 1%nat => Finite q
    | _ =>
        if Rltb 0 q then Finite (Rpower q (1 / INR n))
        else if Rltb q 0 then NaN
        else Finite 0
    end.

(** [math.ceil((b[1] - b[0]) / reference_cell_side)], with the quotient
    taken exact.  The code rounds the quotient to a float before the
    ceiling, so its count can be one more ([num_cells_binary64] below
    follows it in binary64 on one interval). *)
Definition num_cells_of (b : R * R) (side : float_value) : res Z :=
  match side with
  | Finite s =>
      if Req_dec_T s 0 then
        if Req_dec_T (width b) 0 then Raise ValueError else Raise OverflowError
      else Ret (ceil (width b / s))
  | Infinite => Ret 0%Z
  | NaN => Raise ValueError
  end.

(** The body of [for b in bound]: returns the axis' cell side and grid. *)
Fixpoint sample_axes (bound : region) (side : float_value) : res (list R * list (list R)) :=
  match bound with
  | [] => Ret ([], [])
  | b :: bound' =>
      num_cells <- num_cells_of b side ;;
      assert (1 <? num_cells)%Z else Assert_not_enough_points ;;
      let current_cell_size := width b / IZR num_cells in
      rest <- sample_axes bound' side ;;
      Ret (current_cell_size :: fst rest,
           linspace (fst b + current_cell_size / 2)
                    (snd b - current_cell_size / 2)
                    (Z.to_nat num_cells) :: snd rest)
  end.

(** [_sample_points_regularly(bound, sample_size)]: the cell centres
    (one row per cell), the cell diameters and the side-to-diameter ratio. *)
Definition _sample_points_regularly (bound : region) (sample_size : Z)
    : res (list (list R) * list R * list R) :=
  let n := length bound in
  let region_volume := prod (map width bound) in
  match n with
  | O => Raise ZeroDivisionError
  | _ =>
      let side := reference_cell_side n region_volume sample_size in
      axes <- sample_axes bound side ;;
      let points := meshgrid_points (snd axes) in
      let cell_sides := fst axes in
      let cell_diam := norm cell_sides in
      let side_to_diam_ratio := map (fun s => s / cell_diam) cell_sides in
      Ret (points, map (fun _ => cell_diam * 1) points, side_to_diam_ratio)
  end.

(** *** The geometric correction factor *)

Definition _get_G_bound (bound : region) : res R :=
  assert (length bound =? 1)%nat else Assert_G_not_implemented ;;
  Ret 1.

(** *** The discrete fit adapter *)

(** [bound.mean(axis=-1)]. *)
Definition center_of (bound : region) : list R :=
  map (fun b => (fst b + snd b) / 2) bound.

(** [_find_discrete_upper_bound(bound, points, values)]: [points] has one
    row per sample.  [result[-1]] fails on an empty answer.  An answer that
    does not have [n + 1] entries is refused by numpy with a [ValueError],
    here or at the [np.matmul] of the loop at the latest, before anything is
    done with it; the model raises it as soon as the answer is known. *)
Definition _find_discrete_upper_bound (self : OptimalLinearBounder)
    (bound : region) (points : list (list R)) (values : list R) : res (list R) :=
  let center := center_of bound in
  let points_shifted := map (fun p => zipWith Rminus p center) points in
  let result := discrete_solver self points_shifted values (eps self) in
  match result with
  | [] => Raise IndexError
  | _ =>
      assert (length result =? S (length bound))%nat else ValueError ;;
      Ret (removelast result
             ++ [last result 0 - sum (zipWith Rmult (removelast result) center)])
  end.

(** *** The certification and subdivision engine *)

(** One column of the working arrays [points], [cell_diams], [point_act]
    and [point_grad]. *)
Record sample : Type := {
  point : list R;
  cell_diam : R;
  act : R;
  grad : list R
}.

(** [point_act *= -1; point_grad *= -1] when [upper] is false. *)
Definition signed (upper : bool) (x : R) : R := if upper then x else x * -1.

(** [a[i] *= -1] on the coordinates of one point. *)
Fixpoint negate_at (i : nat) (p : list R) : list R :=
  match p, i with
  | [], _ => []
  | x :: p', O => x * -1 :: p'
  | x :: p', S i' => x :: negate_at i' p'
  end.

(** The sample made of a point when nothing is shared: the point itself,
    with the value and the gradient row negated on the lower side. *)
Definition sample_at (self : OptimalLinearBounder) (upper : bool)
    (pd : list R * R) : sample :=
  {| point := fst pd; cell_diam := snd pd;
     act := signed upper (target_function self (fst pd));
     grad := map (signed upper) (gradient self (fst pd)) |}.

(** The target function and the gradient evaluated at a batch of points,
    one point at a time: [point_act] is what the target function returns
    on the coordinate arrays, [point_grad] the transpose of what the
    gradient returns on them and, on the lower side, [point_act *= -1]
    then [point_grad *= -1].  Both negations are done in
    place on the array the callable returned: when that array is one of
    the coordinate arrays, the coordinate is negated, and the value or the
    gradient row read afterwards is the negated coordinate. *)
Definition evaluate (self : OptimalLinearBounder) (upper : bool)
    (pd : list R * R) : sample :=
  if upper then sample_at self true pd
  else
    let p := fst pd in
    let p1 := match target_function self with
              | ReturnsArgument i => negate_at i p
              | Computes _ => p
              end in
    let p2 := match gradient self with
              | ReturnsArgumentColumn j => negate_at j p1
              | ComputesGradient _ => p1
              end in
    {| point := p2; cell_diam := snd pd;
       act := match target_function self with
              | ReturnsArgument i => nth i p2 0
              | Computes f => f p * -1
              end;
       grad := match gradient self with
               | ReturnsArgumentColumn j => [nth j p2 0]
               | ComputesGradient g => map (fun x => x * -1) (g p)
               end |}.

(** [subcube_offsets], one row per [subcube_mask]. *)
Definition subcube_offsets (n : nat) : list (list R) :=
  map (fun subcube_mask =>
         map (fun dim =>
                if (Z.land (Z.of_nat subcube_mask) (Z.shiftl 1 (Z.of_nat dim)) =? 0)%Z
                then -1 else 1)
             (seq 0 n))
      (seq 0 (Z.to_nat (Z.shiftl 1 (Z.of_nat n)))).

Definition offset_to_diam_ratio (side_to_diam_ratio : list R) : list R :=
  map (fun r => 0.25 * r) side_to_diam_ratio.

Section Engine.

Variable self : OptimalLinearBounder.
Variable bound : region.
Variable upper : bool.
Variable G : R.
Variable side_to_diam_ratio : list R.

(** [bound_diff] of one sample for the fitted [coeffs]. *)
Definition bound_diff (coeffs : list R) (s : sample) : R :=
  dot (removelast coeffs) (point s) + last coeffs 0 - act s.

Definition diffs (coeffs : list R) (s : sample) : R :=
  (1 + G) * L1 self * (cell_diam s / 2) - bound_diff coeffs s.

Definition diffs2 (coeffs : list R) (s : sample) : R :=
  norm (zipWith Rminus (removelast coeffs) (grad s)) * (cell_diam s / 2)
  + 0.5 * L2 self * (cell_diam s / 2) ^ 2
  - bound_diff coeffs s.

Definition min_diffs (coeffs : list R) (s : sample) : R :=
  Rmin (diffs coeffs s) (diffs2 coeffs s).

Definition holds (coeffs : list R) (s : sample) : bool :=
  Rltb (min_diffs coeffs s) (eps self).

(** The centre and diameter of the child of [s] in the subcube [offs]. *)
Definition child (offs : list R) (s : sample) : list R * R :=
  (zipWith Rplus (point s)
     (zipWith Rmult (map (fun o => o * cell_diam s) offs)
                    (offset_to_diam_ratio side_to_diam_ratio)),
   cell_diam s / 2).

(** The working set of the next iteration: the samples that hold, then the
    children of the others, subcube by subcube. *)
Definition subdivide (coeffs : list R) (samples : list sample) : list sample :=
  let keep := filter (holds coeffs) samples in
  let split := filter (fun s => negb (holds coeffs s)) samples in
  keep ++ flat_map (fun offs => map (fun s => evaluate self upper (child offs s)) split)
                   (subcube_offsets (length bound)).

(** One pass through the body of [while True]: the returned coefficients,
    or the next working set. *)
Definition iteration (samples : list sample) : res (list R + list sample) :=
  coeffs <- _find_discrete_upper_bound self bound (map point samples) (map act samples) ;;
  if forallb (holds coeffs) samples then
    m <- maximum (map (min_diffs coeffs) samples) ;;
    let coeffs' := removelast coeffs ++ [last coeffs 0 + m] in
    Ret (inl (if upper then coeffs' else map (fun c => c * -1) coeffs'))
  else
    Ret (inr (subdivide coeffs samples)).

(** The [while True] loop, run for at most [fuel] iterations. *)
Fixpoint loop (fuel : nat) (samples : list sample) : res (list R) :=
  match fuel with
  | O => Running
  | S fuel' =>
      r <- iteration samples ;;
      match r with
      | inl coeffs => Ret coeffs
      | inr samples' => loop fuel' samples'
      end
  end.

End Engine.

(** [_bound_one_side(bound, upper)]. *)
Definition _bound_one_side (self : OptimalLinearBounder) (fuel : nat)
    (bound : region) (upper : bool) : res (list R) :=
  G <- _get_G_bound bound ;;
  sampled <- _sample_points_regularly bound (initial_number_of_points self) ;;
  let '(points, cell_diams, side_to_diam_ratio) := sampled in
  let samples := map (evaluate self upper) (combine points cell_diams) in
  assert (length bound <? length points)%nat else Assert_need_dim_plus_one ;;
  loop self bound upper G side_to_diam_ratio fuel samples.

(** The tolerance of the width check. *)
Definition width_tolerance : R := -1 / 100000.

Definition width_check (bound : region) : bool :=
  forallb (fun b => Rltb width_tolerance (width b)) bound.

(** [find_optimal_bounds(bound)]: the lower and the upper coefficients. *)
Definition find_optimal_bounds (self : OptimalLinearBounder) (fuel : nat)
    (bound : region) : res (list R * list R) :=
  assert width_check bound else Assert_positive_width ;;
  lower <- _bound_one_side self fuel bound false ;;
  upper <- _bound_one_side self fuel bound true ;;
  Ret (lower, upper).

(** ** Concrete bounders used in the examples *)

(** A solver that always answers the zero function. *)
Definition zero_solver : solver := fun _ _ _ => [0; 0].

Definition registry_bisect (s : solver) : string -> option solver :=
  fun name => if String.eqb name "bisect" then Some s else None.

(** The zero function on one variable, with 3 initial points. *)
Definition flat_bounder : OptimalLinearBounder :=
  {| target_function := Computes (fun _ => 0);
     gradient := ComputesGradient (fun _ => [0]);
     eps := 1;
     initial_number_of_points := 3;
     L1 := 1;
     L2 := 1;
     discrete_solver := zero_solver |}.

(** Construct a bounder, then ask it for bounds. *)
Definition construct_and_bound (registry : string -> option solver)
    (f : target_callable) (g : gradient_callable) (l1 l2 e : R) (npoints : Z)
    (name : string) (fuel : nat) (bound : region) : res (list R * list R) :=
  self <- __init__ registry f g l1 l2 e npoints name ;;
  find_optimal_bounds self fuel bound.

(** One sample of the zero function: centre 1, diameter 1/4. *)
Definition small_sample : sample := evaluate flat_bounder true ([1], 1 / 4).

(** One sample of the zero function: centre 1, diameter 4. *)
Definition large_sample : sample := evaluate flat_bounder true ([1], 4).

(** ** Notions used in the statements *)

(** A choice of sign per axis. *)
Definition sign_vector (n : nat) (sigma : list R) : Prop :=
  length sigma = n /\ Forall (fun o => o = 1 \/ o = -1) sigma.

(** The centre of a child cell as the specification gives it: the parent's
    centre moved on each axis by [sigma * (1/4 * ratio * diameter)]. *)
Definition offset_center (ratio sigma : list R) (s : sample) : list R :=
  zipWith Rplus (point s)
    (zipWith (fun o rho => o * (/ 4 * rho * cell_diam s)) sigma ratio).

(** The row of [subcube_offsets] for one mask. *)
Definition offsets_of_mask (n mask : nat) : list R :=
  map (fun dim =>
         if (Z.land (Z.of_nat mask) (Z.shiftl 1 (Z.of_nat dim)) =? 0)%Z
         then -1 else 1)
      (seq 0 n).

(** The mask whose bit [dim] is set exactly where [sigma] is 1. *)
Fixpoint mask_of (sigma : list R) : nat :=
  match sigma with
  | [] => 0
  | o :: sigma' => (if Req_dec_T o 1 then 1 else 0) + 2 * mask_of sigma'
  end.

(** The same bounder for the function [-f], with gradient [-f']. *)
Definition negate_target (self : OptimalLinearBounder) : OptimalLinearBounder :=
  {| target_function := Computes (fun p => - target_function self p);
     gradient := ComputesGradient (fun p => map Ropp (gradient self p));
     eps := eps self;
     initial_number_of_points := initial_number_of_points self;
     L1 := L1 self;
     L2 := L2 self;
     discrete_solver := discrete_solver self |}.

(** The outcome of a call with its returned value transformed. *)
Definition res_map {A B : Type} (f : A -> B) (m : res A) : res B :=
  match m with
  | Ret a => Ret (f a)
  | Raise e => Raise e
  | Running => Running
  end.

(** The grid sampler in the words of its specification. *)




Definition nat_product (l : list nat) : nat := fold_right Nat.mul 1%nat l.



(** The unit square, sampled with a target of 3 points. *)
Definition unit_square : region := [(0, 1); (0, 1)].

(** ** Regions, cells and working sets *)

(** The points of a region. *)
Definition in_region (bound : region) (x : list R) : Prop :=
  Forall2 (fun xa b => fst b <= xa <= snd b) x bound.

(** The sub-region a sample stands for: the box around [point] whose side
    on each axis is [ratio * cell_diam]. *)
Definition in_cell (ratio : list R) (s : sample) (x : list R) : Prop :=
  Forall2 (fun xa pr => Rabs (xa - fst pr) <= snd pr * cell_diam s / 2)
          x (combine (point s) ratio).


(** The working sets of [_bound_one_side]: the set the loop is entered with
    and the sets its non-terminal iterations go on with. *)
Inductive working_set (self : OptimalLinearBounder) (bound : region) (upper : bool)
    (ratio : list R) : list sample -> Prop :=
| working_initial (G : R) (points : list (list R)) (cell_diams : list R) :
    _get_G_bound bound = Ret G ->
    _sample_points_regularly bound (initial_number_of_points self)
      = Ret (points, cell_diams, ratio) ->
    (length bound <? length points)%nat = true ->
    working_set self bound upper ratio
      (map (evaluate self upper) (combine points cell_diams))
| working_next (G : R) (samples samples' : list sample) :
    working_set self bound upper ratio samples ->
    _get_G_bound bound = Ret G ->
    iteration self bound upper G ratio samples = Ret (inr samples') ->
    working_set self bound upper ratio samples'.

(** A sample of a one-dimensional working set: its cell
    [[p - d/2, p + d/2]] lies in [[lo, hi]] and its value and gradient are
    those of the target at [p]. *)
Definition interval_cell (self : OptimalLinearBounder) (upper : bool)
    (lo hi : R) (s : sample) : Prop :=
  exists p, s = sample_at self upper ([p], cell_diam s)
            /\ 0 < cell_diam s
            /\ lo <= p - cell_diam s / 2 /\ p + cell_diam s / 2 <= hi.

(** Every point of [[lo, hi]] lies in the cell of some sample. *)
Definition covers (lo hi : R) (samples : list sample) : Prop :=
  forall x, lo <= x <= hi ->
    exists s p, In s samples /\ point s = [p] /\ Rabs (x - p) <= cell_diam s / 2.

(** The working set the loop is entered with on the interval [[lo, hi]]. *)
Definition initial_samples (self : OptimalLinearBounder) (upper : bool)
    (lo hi : R) : list sample :=
  let N := initial_number_of_points self in
  let c := (hi - lo) / IZR N in
  map (fun j => evaluate self upper
                  ([(lo + INR j * c + (lo + (INR j + 1) * c)) / 2], c))
      (seq 0 (Z.to_nat N)).

(** ** The contract of a discrete solver *)


(** A solver that answers the lowest line of slope 100 above the values. *)
Definition steep_solver : solver :=
  fun points values _ =>
    let residuals := zipWith (fun p v => v - 100 * hd 0 p) points values in
    [100; fold_right Rmax (hd 0 residuals) residuals].

(** The zero function on one variable, bounded with [steep_solver]. *)
Definition steep_bounder : OptimalLinearBounder :=
  {| target_function := Computes (fun _ => 0);
     gradient := ComputesGradient (fun _ => [0]);
     eps := 2;
     initial_number_of_points := 3;
     L1 := 1;
     L2 := 1;
     discrete_solver := steep_solver |}.





(** ** Callables that hand back their argument *)

(** Neither callable returns one of the arrays it was given. *)
Definition returns_new_arrays (self : OptimalLinearBounder) : bool :=
  match target_function self, gradient self with
  | Computes _, ComputesGradient _ => true
  | _, _ => false
  end.

(** The side on which nothing the callables return is negated in place, or
    on which what is negated is not shared with the points. *)
Definition pure_side (self : OptimalLinearBounder) (upper : bool) : bool :=
  upper || returns_new_arrays self.

(** A solver that answers the lowest line of slope 1 above the values. *)
Definition unit_slope_solver : solver :=
  fun points values _ =>
    let residuals := zipWith (fun p v => v - 1 * hd 0 p) points values in
    [1; fold_right Rmax (hd 0 residuals) residuals].

(** The identity on one variable, written [lambda x: x]: the target hands
    back the array of the coordinate.  Its gradient is the constant 1, so
    [L1 = 1] and [L2 = 0]. *)
Definition identity_bounder (e : R) : OptimalLinearBounder :=
  {| target_function := ReturnsArgument 0;
     gradient := ComputesGradient (fun _ => [1]);
     eps := e;
     initial_number_of_points := 3;
     L1 := 1;
     L2 := 0;
     discrete_solver := unit_slope_solver |}.

(** The same function written [lambda x: 1 * x], which computes a new
    array. *)
Definition identity_copy_bounder (e : R) : OptimalLinearBounder :=
  {| target_function := Computes (fun p => nth 0 p 0);
     gradient := ComputesGradient (fun _ => [1]);
     eps := e;
     initial_number_of_points := 3;
     L1 := 1;
     L2 := 0;
     discrete_solver := unit_slope_solver |}.

(** ** The number of cells in binary64 *)





(** * Properties *)

(** ** Arithmetic helpers *)

Lemma Rltb_true (x y : R) : x < y -> Rltb x y = true.
Proof. intros H; unfold Rltb; destruct (Rlt_dec x y); [reflexivity | contradiction]. Qed.

Lemma Rltb_false (x y : R) : y <= x -> Rltb x y = false.
Proof. intros H; unfold Rltb; destruct (Rlt_dec x y); [lra | reflexivity]. Qed.

Lemma Rltb_spec (x y : R) : Rltb x y = true <-> x < y.
Proof.
  unfold Rltb; destruct (Rlt_dec x y); split; intros; try assumption;
    try reflexivity; try discriminate; contradiction.
Qed.

Lemma ceil_bounds (x : R) : IZR (ceil x) - 1 < x <= IZR (ceil x).
Proof.
  unfold ceil; rewrite minus_IZR.
  destruct (archimed (- x)) as [Hgt Hle]; simpl; lra.
Qed.

Lemma ceil_unique (x : R) (z : Z) : IZR z - 1 < x <= IZR z -> ceil x = z.
Proof.
  intros [Hlo Hhi]; destruct (ceil_bounds x) as [Clo Chi].
  assert (H1 : (z - 1 < ceil x)%Z) by (apply lt_IZR; rewrite minus_IZR; simpl; lra).
  assert (H2 : (ceil x - 1 < z)%Z) by (apply lt_IZR; rewrite minus_IZR; simpl; lra).
  lia.
Qed.

Lemma ceil_IZR (z : Z) : ceil (IZR z) = z.
Proof. apply ceil_unique; lra. Qed.

(** ** Which exceptions the engine can raise *)

Lemma find_discrete_raises (self : OptimalLinearBounder) bound points values e :
  _find_discrete_upper_bound self bound points values = Raise e ->
  e = ValueError \/ e = IndexError.
Proof.
  unfold _find_discrete_upper_bound.
  destruct (discrete_solver _ _ _ _); [intros H; right; congruence |].
  destruct (_ =? _)%nat; intros H; [discriminate | left; congruence].
Qed.

Lemma maximum_raises (l : list R) e : maximum l = Raise e -> e = ValueError.
Proof. destruct l; simpl; intros H; [congruence | discriminate]. Qed.

Lemma iteration_raises (self : OptimalLinearBounder) bound upper G ratio samples e :
  iteration self bound upper G ratio samples = Raise e ->
  e = ValueError \/ e = IndexError.
Proof.
  unfold iteration.
  destruct (_find_discrete_upper_bound _ _ _ _) as [coeffs | e' |] eqn:Hfit; simpl;
    try discriminate.
  - destruct (forallb _ _); [| discriminate].
    destruct (maximum _) as [m | e' |] eqn:Hmax; simpl; try discriminate.
    intros H; injection H as <-. left; eapply maximum_raises; eassumption.
  - intros H; injection H as <-. eapply find_discrete_raises; eassumption.
Qed.

Lemma loop_raises (self : OptimalLinearBounder) bound upper G ratio fuel :
  forall samples e,
    loop self bound upper G ratio fuel samples = Raise e ->
    e = ValueError \/ e = IndexError.
Proof.
  induction fuel as [| fuel IH]; intros samples e; simpl; [discriminate |].
  destruct (iteration _ _ _ _ _ _) as [[coeffs | samples'] | e' |] eqn:Hit; simpl;
    try discriminate.
  - apply IH.
  - intros H; injection H as <-. eapply iteration_raises; eassumption.
Qed.

Lemma num_cells_raises b side e :
  num_cells_of b side = Raise e -> e = ValueError \/ e = OverflowError.
Proof.
  destruct side as [s | |]; simpl; try discriminate.
  - destruct (Req_dec_T s 0); [| discriminate].
    destruct (Req_dec_T (width b) 0); intros H; injection H as <-; auto.
  - intros H; injection H as <-; auto.
Qed.

Lemma sample_axes_raises bound side e :
  sample_axes bound side = Raise e ->
  e = ValueError \/ e = OverflowError \/ e = Assert_not_enough_points.
Proof.
  revert e; induction bound as [| b bound IH]; intros e; simpl; [discriminate |].
  destruct (num_cells_of b side) as [k | e' |] eqn:Hk; simpl; try discriminate.
  - destruct (1 <? k)%Z; [| intros H; injection H as <-; auto].
    destruct (sample_axes bound side) as [rest | e' |]; simpl; try discriminate.
    intros H; injection H as <-. apply IH; reflexivity.
  - intros H; injection H as <-.
    destruct (num_cells_raises _ _ Hk); auto.
Qed.

Lemma sampler_raises bound sample_size e :
  _sample_points_regularly bound sample_size = Raise e ->
  e = ZeroDivisionError \/ e = ValueError \/ e = OverflowError
  \/ e = Assert_not_enough_points.
Proof.
  unfold _sample_points_regularly.
  destruct (length bound); [intros H; injection H as <-; auto |].
  destruct (sample_axes _ _) as [axes | e' |] eqn:Hax; simpl; try discriminate.
  intros H; injection H as <-.
  destruct (sample_axes_raises _ _ Hax) as [-> | [-> | ->]]; auto.
Qed.

Lemma bound_one_side_not_width (self : OptimalLinearBounder) fuel bound upper :
  width_check bound = true ->
  _bound_one_side self fuel bound upper <> Raise Assert_positive_width.
Proof.
  intros _; unfold _bound_one_side, _get_G_bound.
  destruct (_ =? _)%nat; simpl; [| discriminate].
  destruct (_sample_points_regularly _ _) as [[[pts ds] ratio] | e |] eqn:Hs; simpl;
    try discriminate.
  - destruct (_ <? _)%nat; [| discriminate].
    intros H; apply loop_raises in H; destruct H; discriminate.
  - intros H; injection H as ->.
    destruct (sampler_raises _ _ Hs) as [H | [H | [H | H]]]; discriminate.
Qed.

Lemma width_check_spec (bound : region) :
  width_check bound = true <-> Forall (fun b => width_tolerance < width b) bound.
Proof.
  unfold width_check; rewrite forallb_forall, Forall_forall.
  split; intros H b Hb; apply Rltb_spec, H, Hb.
Qed.

Lemma find_optimal_bounds_width (self : OptimalLinearBounder) fuel bound :
  find_optimal_bounds self fuel bound = Raise Assert_positive_width
  <-> width_check bound = false.
Proof.
  unfold find_optimal_bounds.
  destruct (width_check bound) eqn:Hc; split; try discriminate; try reflexivity.
  intros H.
  destruct (_bound_one_side self fuel bound false) as [lo | e |] eqn:Hlo; simpl in H;
    try discriminate.
  - destruct (_bound_one_side self fuel bound true) as [up | e |] eqn:Hup; simpl in H;
      try discriminate.
    injection H as ->.
    exfalso; eapply bound_one_side_not_width; [exact Hc | exact Hup].
  - injection H as ->.
    exfalso; eapply bound_one_side_not_width; [exact Hc | exact Hlo].
Qed.

(** ** The region-width precondition *)

(** C3, as stated, fails: the interval [0, 0] has a non-positive width, the
    width check accepts it, and the call ends in the [ValueError] of
    [math.ceil] in the sampler, not in the width assertion. *)
Lemma zero_width_passes_check :
  Exists (fun b => width b <= 0) [(0, 0)]
  /\ width_check [(0, 0)] = true
  /\ find_optimal_bounds flat_bounder 1 [(0, 0)] = Raise ValueError
  /\ find_optimal_bounds flat_bounder 1 [(0, 0)] <> Raise Assert_positive_width.
Proof.
  assert (Hc : width_check [(0, 0)] = true).
  { unfold width_check, width, width_tolerance; simpl.
    rewrite Rltb_true by lra; reflexivity. }
  assert (Hv : find_optimal_bounds flat_bounder 1 [(0, 0)] = Raise ValueError).
  { unfold find_optimal_bounds; rewrite Hc.
    unfold _bound_one_side, _get_G_bound, _sample_points_regularly; simpl.
    unfold num_cells_of, width; simpl.
    destruct (Req_dec_T ((0 - 0) * 1 / 3) 0) as [_ | Hn]; [| exfalso; apply Hn; lra].
    destruct (Req_dec_T (0 - 0) 0) as [_ | Hn]; [| exfalso; apply Hn; lra].
    reflexivity. }
  repeat split; try assumption.
  - constructor; unfold width; simpl; lra.
  - rewrite Hv; discriminate.
Qed.

(** C3, amended: [find_optimal_bounds] fails with 'Bounds must have positive
    width' exactly for the regions in which some interval has a width of at
    most [-1e-5]; the check passes exactly when every width is above
    [-1e-5], in particular when every width is strictly positive. *)
Theorem width_precondition (self : OptimalLinearBounder) (fuel : nat) (bound : region) :
  (find_optimal_bounds self fuel bound = Raise Assert_positive_width
   <-> Exists (fun b => width b <= width_tolerance) bound)
  /\ (width_check bound = true
      <-> Forall (fun b => width_tolerance < width b) bound)
  /\ (Forall (fun b => 0 < width b) bound -> width_check bound = true).
Proof.
  split; [| split].
  - rewrite find_optimal_bounds_width.
    rewrite <- Bool.not_true_iff_false, width_check_spec.
    rewrite <- Exists_Forall_neg by (intros b; lra).
    split; apply Exists_impl; intros b; lra.
  - apply width_check_spec.
  - intros H; apply width_check_spec.
    revert H; apply Forall_impl; intros b; unfold width_tolerance; lra.
Qed.

Lemma width_precondition_witness :
  Forall (fun b => 0 < width b) [(0, 1)] /\ width_check [(0, 1)] = true.
Proof.
  assert (H : Forall (fun b => 0 < width b) [(0, 1)]).
  { repeat constructor; unfold width; simpl; lra. }
  split; [exact H |].
  exact (proj2 (proj2 (width_precondition flat_bounder 1 [(0, 1)])) H).
Defined.

(** ** The geometric correction factor *)

(** C9, as stated, fails: on a two-interval region whose second interval has
    width -1 the width assertion fires first, so the call does not end in
    the unimplemented-case error. *)
Lemma two_intervals_width_error :
  (1 < length [(0, 1); (1, 0)])%nat
  /\ find_optimal_bounds flat_bounder 1 [(0, 1); (1, 0)] = Raise Assert_positive_width
  /\ find_optimal_bounds flat_bounder 1 [(0, 1); (1, 0)] <> Raise Assert_G_not_implemented.
Proof.
  assert (H : find_optimal_bounds flat_bounder 1 [(0, 1); (1, 0)]
              = Raise Assert_positive_width).
  { apply find_optimal_bounds_width.
    unfold width_check, width, width_tolerance; simpl.
    rewrite Rltb_true by lra. rewrite Rltb_false by lra. reflexivity. }
  split; [simpl; lia |]. split; [exact H |]. rewrite H; discriminate.
Qed.

(** C9, amended: [_get_G_bound] returns exactly 1 for every one-interval
    region and fails with 'Bounding G for dim > 1 is not implemented' for
    every region with more than one interval; every call of
    [find_optimal_bounds] on a region with more than one interval that
    passes the width check fails with that error, whatever the iteration
    budget, and returns no bound. *)
Theorem G_bound_dimension (self : OptimalLinearBounder) (fuel : nat) (bound : region) :
  (length bound = 1%nat -> _get_G_bound bound = Ret 1)
  /\ ((1 < length bound)%nat -> _get_G_bound bound = Raise Assert_G_not_implemented)
  /\ ((1 < length bound)%nat -> width_check bound = true ->
      find_optimal_bounds self fuel bound = Raise Assert_G_not_implemented).
Proof.
  unfold find_optimal_bounds, _bound_one_side, _get_G_bound.
  split; [| split].
  - intros ->; reflexivity.
  - intros H. destruct (Nat.eqb_spec (length bound) 1); [lia | reflexivity].
  - intros H ->. destruct (Nat.eqb_spec (length bound) 1); [lia | reflexivity].
Qed.

Lemma G_bound_dimension_witness :
  _get_G_bound [(0, 1)] = Ret 1
  /\ _get_G_bound [(0, 1); (0, 1)] = Raise Assert_G_not_implemented
  /\ find_optimal_bounds flat_bounder 1 [(0, 1); (0, 1)] = Raise Assert_G_not_implemented.
Proof.
  assert (Hc : width_check [(0, 1); (0, 1)] = true).
  { unfold width_check, width, width_tolerance; simpl.
    rewrite !Rltb_true by lra; reflexivity. }
  split; [| split].
  - apply (proj1 (G_bound_dimension flat_bounder 1 [(0, 1)])); reflexivity.
  - apply (proj1 (proj2 (G_bound_dimension flat_bounder 1 [(0, 1); (0, 1)]))); simpl; lia.
  - apply (proj2 (proj2 (G_bound_dimension flat_bounder 1 [(0, 1); (0, 1)])));
      [simpl; lia | exact Hc].
Defined.

(** ** Too few initial points *)

(** C10, as stated, fails: with [initial_npoints = 1] the constructor's own
    assertion fails, so the grid-construction error is never reached. *)
Lemma one_point_fails_in_constructor :
  construct_and_bound (registry_bisect zero_solver)
       (Computes (fun _ => 0)) (ComputesGradient (fun _ => [0]))
    1 1 1 1%Z "bisect" 1 [(0, 1)] = Raise Assert_initial_number_of_points
  /\ construct_and_bound (registry_bisect zero_solver)
       (Computes (fun _ => 0)) (ComputesGradient (fun _ => [0]))
       1 1 1 1%Z "bisect" 1 [(0, 1)] <> Raise Assert_not_enough_points.
Proof. split; [reflexivity | discriminate]. Qed.

(** C10, amended: constructing the bounder with [initial_npoints = 1] fails
    in the constructor, on its assertion that the number of initial points
    exceeds 2, so no bounds are requested or produced; the grid sampler,
    called on the region [0, 1] with a sample size of 1, fails with 'Not
    enough points to properly fill the region'. *)
Theorem one_point_rejected (registry : string -> option solver)
    (f : target_callable) (g : gradient_callable) (l1 l2 e : R) (name : string)
    (fuel : nat) (bound : region) :
  __init__ registry f g l1 l2 e 1%Z name = Raise Assert_initial_number_of_points
  /\ construct_and_bound registry f g l1 l2 e 1%Z name fuel bound
     = Raise Assert_initial_number_of_points
  /\ _sample_points_regularly [(0, 1)] 1%Z = Raise Assert_not_enough_points.
Proof.
  split; [reflexivity |]. split; [reflexivity |].
  unfold _sample_points_regularly; simpl.
  unfold num_cells_of, width; simpl.
  destruct (Req_dec_T ((1 - 0) * 1 / 1) 0) as [Hz | _]; [exfalso; lra |].
  replace ((1 - 0) / ((1 - 0) * 1 / 1)) with (IZR 1) by (simpl; field).
  rewrite ceil_IZR; reflexivity.
Qed.

(** ** The certification step *)

Lemma fold_left_Rmax_spec (l : list R) :
  forall x, let m := fold_left Rmax l x in
    In m (x :: l) /\ forall y, In y (x :: l) -> y <= m.
Proof.
  induction l as [| a l IH]; intros x; simpl.
  - split; [left; reflexivity | intros y [<- | []]; lra].
  - destruct (IH (Rmax x a)) as [Hin Hub]; simpl in Hin, Hub. split.
    + destruct Hin as [Hin | Hin]; [| right; right; exact Hin].
      rewrite <- Hin. unfold Rmax; destruct (Rle_dec x a); auto.
    + intros y [Hy | [Hy | Hy]].
      * subst y. apply Rle_trans with (Rmax x a); [apply Rmax_l | apply Hub; left; reflexivity].
      * subst y. apply Rle_trans with (Rmax x a); [apply Rmax_r | apply Hub; left; reflexivity].
      * apply Hub; right; exact Hy.
Qed.

Lemma maximum_spec (l : list R) :
  l <> [] -> exists m, maximum l = Ret m /\ In m l /\ forall y, In y l -> y <= m.
Proof.
  destruct l as [| x l]; [congruence |]; intros _.
  exists (fold_left Rmax l x); split; [reflexivity |].
  apply fold_left_Rmax_spec.
Qed.

(** C4: for the coefficients [c] fitted in an iteration, the margin of a
    sample with half-diameter [r] and [bound_diff = c . point - value] is
    the minimum of [(1 + G) * L1 * r - bound_diff] and
    [|c_slope - gradient| * r + 0.5 * L2 * r^2 - bound_diff]; the sample is
    certified exactly when its margin is below [eps]; when every sample is
    certified the loop returns in this iteration, with the fitted slope and
    the intercept [c_0 + max margin] (the whole vector negated on the
    lower side), and otherwise the loop goes on with the subdivided set. *)
Theorem certification_step (self : OptimalLinearBounder) (bound : region)
    (upper : bool) (G : R) (ratio : list R) (samples : list sample) (coeffs : list R) :
  samples <> [] ->
  _find_discrete_upper_bound self bound (map point samples) (map act samples)
    = Ret coeffs ->
  let lin := removelast coeffs in
  let c0 := last coeffs 0 in
  let r := fun s => cell_diam s / 2 in
  let bd := fun s => dot lin (point s) + c0 - act s in
  let margin := fun s =>
    Rmin ((1 + G) * L1 self * r s - bd s)
         (norm (zipWith Rminus lin (grad s)) * r s + 0.5 * L2 self * (r s) ^ 2 - bd s) in
  (forall s, min_diffs self G coeffs s = margin s)
  /\ (forall s, holds self G coeffs s = true <-> margin s < eps self)
  /\ ((forall s, In s samples -> margin s < eps self) ->
      exists m,
        (exists s, In s samples /\ margin s = m)
        /\ (forall s, In s samples -> margin s <= m)
        /\ forall fuel,
             loop self bound upper G ratio (S fuel) samples
             = Ret (if upper then lin ++ [c0 + m]
                    else map (fun c => c * -1) (lin ++ [c0 + m])))
  /\ ((exists s, In s samples /\ eps self <= margin s) ->
      forall fuel,
        loop self bound upper G ratio (S fuel) samples
        = loop self bound upper G ratio fuel
            (subdivide self bound upper G ratio coeffs samples)).
Proof.
  intros Hne Hfit lin c0 r bd margin.
  assert (Hm : forall s, min_diffs self G coeffs s = margin s) by reflexivity.
  assert (Hh : forall s, holds self G coeffs s = true <-> margin s < eps self).
  { intros s; unfold holds; rewrite Rltb_spec, Hm; reflexivity. }
  split; [exact Hm |]. split; [exact Hh |]. split.
  - intros Hall.
    destruct (maximum_spec (l := map (min_diffs self G coeffs) samples)) as (m & Hmax & Hin & Hub).
    { destruct samples; [congruence | discriminate]. }
    exists m. split; [| split].
    + apply in_map_iff in Hin. destruct Hin as (s & Hs & Hin).
      exists s; split; [exact Hin | rewrite <- Hm; exact Hs].
    + intros s Hs. rewrite <- Hm. apply Hub, in_map; exact Hs.
    + intros fuel. simpl. unfold iteration. rewrite Hfit; simpl.
      replace (forallb (holds self G coeffs) samples) with true.
      * rewrite Hmax; simpl. reflexivity.
      * symmetry; apply forallb_forall. intros s Hs; apply Hh, Hall, Hs.
  - intros (s & Hs & Hge) fuel. simpl. unfold iteration. rewrite Hfit; simpl.
    replace (forallb (holds self G coeffs) samples) with false; [reflexivity |].
    symmetry; apply Bool.not_true_iff_false. intros Hall.
    rewrite forallb_forall in Hall. specialize (Hall s Hs). apply Hh in Hall. lra.
Qed.

Lemma certification_step_witness :
  exists c, loop flat_bounder [(0, 3)] true 1 [1] 1 [small_sample] = Ret c.
Proof.
  assert (Hne : [small_sample] <> []) by discriminate.
  assert (Hfit : _find_discrete_upper_bound flat_bounder [(0, 3)]
                   (map point [small_sample]) (map act [small_sample])
                 = Ret [0; 0 - (0 * ((0 + 3) / 2) + 0)]) by reflexivity.
  destruct (certification_step flat_bounder [(0, 3)] true 1 [1] Hne Hfit)
    as (_ & _ & Hall & _).
  destruct Hall as (m & _ & _ & Hloop).
  - intros s [<- | []].
    eapply Rle_lt_trans; [apply Rmin_l |].
    unfold dot, sum; simpl. lra.
  - eexists. apply (Hloop 0%nat).
Defined.

(** ** The subdivision step *)

Lemma land_single_bit (m d : Z) :
  (0 <= d)%Z ->
  (Z.land m (Z.shiftl 1 d) =? 0)%Z = negb (Z.testbit m d).
Proof.
  intros Hd. rewrite Z.shiftl_1_l.
  destruct (Z.testbit m d) eqn:Hb; simpl.
  - apply Z.eqb_neq. intros H0.
    assert (Hbit : Z.testbit (Z.land m (2 ^ d)) d = true).
    { rewrite Z.land_spec, Hb, Z.pow2_bits_true by exact Hd. reflexivity. }
    rewrite H0, Z.bits_0 in Hbit. discriminate.
  - apply Z.eqb_eq. apply Z.bits_inj'. intros k Hk.
    rewrite Z.land_spec, Z.bits_0, Z.pow2_bits_eqb by exact Hd.
    destruct (Z.eqb_spec d k) as [-> | _].
    + rewrite Hb; reflexivity.
    + apply andb_false_r.
Qed.

Lemma offsets_of_mask_testbit (n mask : nat) :
  offsets_of_mask n mask
  = map (fun dim => if Z.testbit (Z.of_nat mask) (Z.of_nat dim) then 1 else -1)
        (seq 0 n).
Proof.
  unfold offsets_of_mask. apply map_ext. intros dim.
  rewrite land_single_bit by lia.
  destruct (Z.testbit _ _); reflexivity.
Qed.

Lemma subcube_offsets_rows (n : nat) :
  subcube_offsets n
  = map (offsets_of_mask n) (seq 0 (Z.to_nat (Z.shiftl 1 (Z.of_nat n)))).
Proof. reflexivity. Qed.

Lemma num_subcubes (n : nat) : Z.to_nat (Z.shiftl 1 (Z.of_nat n)) = (2 ^ n)%nat.
Proof.
  rewrite Z.shiftl_1_l.
  replace 2%Z with (Z.of_nat 2) by reflexivity.
  rewrite <- Nat2Z.inj_pow. apply Nat2Z.id.
Qed.

Lemma length_subcube_offsets (n : nat) : length (subcube_offsets n) = (2 ^ n)%nat.
Proof. unfold subcube_offsets. rewrite length_map, length_seq. apply num_subcubes. Qed.

Lemma offsets_of_mask_sign (n mask : nat) : sign_vector n (offsets_of_mask n mask).
Proof.
  unfold sign_vector, offsets_of_mask. rewrite length_map, length_seq.
  split; [reflexivity |]. apply Forall_forall. intros o Ho.
  apply in_map_iff in Ho. destruct Ho as (dim & <- & _).
  destruct (_ =? _)%Z; auto.
Qed.

Lemma mask_of_bound (sigma : list R) : (mask_of sigma < 2 ^ length sigma)%nat.
Proof.
  induction sigma as [| o sigma IH]; simpl; [lia |].
  destruct (Req_dec_T o 1); lia.
Qed.

Lemma offsets_of_mask_of (sigma : list R) :
  Forall (fun o => o = 1 \/ o = -1) sigma ->
  offsets_of_mask (length sigma) (mask_of sigma) = sigma.
Proof.
  intros Hs. rewrite offsets_of_mask_testbit.
  induction Hs as [| o sigma Ho Hs IH]; [reflexivity |].
  cbn [length mask_of]. rewrite <- cons_seq, <- seq_shift. cbn [map]. rewrite map_map.
  set (b := if Req_dec_T o 1 then true else false).
  assert (Hz : Z.of_nat ((if Req_dec_T o 1 then 1 else 0) + 2 * mask_of sigma)
               = (2 * Z.of_nat (mask_of sigma) + Z.b2z b)%Z).
  { unfold b; destruct (Req_dec_T o 1); simpl Z.b2z; lia. }
  rewrite Hz. f_equal.
  - change (Z.of_nat 0) with 0%Z. rewrite Z.testbit_0_r.
    unfold b; destruct (Req_dec_T o 1) as [-> | Hn]; [reflexivity |].
    destruct Ho; [contradiction | congruence].
  - etransitivity; [| exact IH]. apply map_ext. intros dim.
    rewrite Nat2Z.inj_succ, Z.testbit_succ_r by lia. reflexivity.
Qed.

Lemma in_subcube_offsets (n : nat) (sigma : list R) :
  In sigma (subcube_offsets n) <-> sign_vector n sigma.
Proof.
  rewrite subcube_offsets_rows, num_subcubes, in_map_iff. split.
  - intros (mask & <- & _). apply offsets_of_mask_sign.
  - intros [Hlen Hs]. exists (mask_of sigma). subst n. split.
    + apply offsets_of_mask_of, Hs.
    + apply in_seq. pose proof (mask_of_bound sigma). lia.
Qed.

Lemma offsets_of_mask_inj (n m m' : nat) :
  (m < 2 ^ n)%nat -> (m' < 2 ^ n)%nat ->
  offsets_of_mask n m = offsets_of_mask n m' -> m = m'.
Proof.
  intros Hm Hm' Heq. rewrite !offsets_of_mask_testbit in Heq.
  assert (Hbits : forall dim, (dim < n)%nat ->
            Z.testbit (Z.of_nat m) (Z.of_nat dim) = Z.testbit (Z.of_nat m') (Z.of_nat dim)).
  { intros dim Hdim.
    assert (Hin : In dim (seq 0 n)) by (apply in_seq; lia).
    pose proof (proj1 (map_ext_in_iff) Heq dim Hin) as H; simpl in H.
    destruct (Z.testbit (Z.of_nat m) _), (Z.testbit (Z.of_nat m') _);
      try reflexivity; exfalso; lra. }
  assert (Hhigh : forall k, (k < 2 ^ n)%nat -> forall d, (Z.of_nat n <= d)%Z ->
            Z.testbit (Z.of_nat k) d = false).
  { intros k Hk d Hd.
    destruct (Nat.eq_dec k 0) as [-> | Hk0]; [apply Z.bits_0 |].
    apply Z.bits_above_log2; [lia |].
    apply Z.lt_le_trans with (Z.of_nat n); [| exact Hd].
    apply Z.log2_lt_pow2; [lia |].
    replace 2%Z with (Z.of_nat 2) by reflexivity.
    rewrite <- Nat2Z.inj_pow. lia. }
  apply Nat2Z.inj. apply Z.bits_inj'. intros d Hd.
  destruct (Z_lt_le_dec d (Z.of_nat n)) as [Hlt | Hge].
  - replace d with (Z.of_nat (Z.to_nat d)) by lia. apply Hbits. lia.
  - rewrite !Hhigh by assumption. reflexivity.
Qed.

Lemma NoDup_subcube_offsets (n : nat) : NoDup (subcube_offsets n).
Proof.
  rewrite subcube_offsets_rows, num_subcubes.
  apply NoDup_map_NoDup_ForallPairs; [| apply seq_NoDup].
  intros m m' Hm Hm' Heq. apply in_seq in Hm, Hm'.
  apply (offsets_of_mask_inj n); [lia | lia | exact Heq].
Qed.

Lemma child_offset_center (ratio sigma : list R) (s : sample) :
  child ratio sigma s = (offset_center ratio sigma s, cell_diam s / 2).
Proof.
  unfold child, offset_center, offset_to_diam_ratio. f_equal. f_equal.
  revert ratio; induction sigma as [| o sigma IH]; intros [| rho ratio]; simpl;
    try reflexivity.
  rewrite IH. f_equal. lra.
Qed.

Lemma iteration_inr (self : OptimalLinearBounder) bound upper G ratio samples samples' :
  iteration self bound upper G ratio samples = Ret (inr samples') ->
  exists coeffs,
    _find_discrete_upper_bound self bound (map point samples) (map act samples)
      = Ret coeffs
    /\ forallb (holds self G coeffs) samples = false
    /\ samples' = subdivide self bound upper G ratio coeffs samples.
Proof.
  unfold iteration.
  destruct (_find_discrete_upper_bound _ _ _ _) as [coeffs | e |]; simpl;
    try discriminate.
  destruct (forallb _ _) eqn:Hall.
  - destruct (maximum _); simpl; discriminate.
  - intros H; injection H as <-. exists coeffs; auto.
Qed.


Lemma evaluate_sample_at (self : OptimalLinearBounder) (upper : bool) (pd : list R * R) :
  pure_side self upper = true ->
  evaluate self upper pd = sample_at self upper pd.
Proof.
  unfold pure_side, returns_new_arrays, evaluate, sample_at, signed.
  destruct upper; [reflexivity |]. cbn [orb].
  destruct (target_function self) as [f | i]; [| discriminate].
  destruct (gradient self) as [g | j]; [| discriminate].
  reflexivity.
Qed.

Lemma evaluate_cell_diam (self : OptimalLinearBounder) (upper : bool) (pd : list R * R) :
  cell_diam (evaluate self upper pd) = snd pd.
Proof. unfold evaluate; destruct upper; reflexivity. Qed.


(** X14: the subdivision step where nothing is negated in place on the
    points (the upper side, or callables that return new arrays): in a
    non-terminal iteration the certified samples are kept as they are
    (centre, diameter, value and gradient), in their order, and each
    uncertified sample is replaced by exactly [2^n] children, one for each
    of the [2^n] distinct sign combinations [sigma]: the child's centre is
    the parent's moved on every axis by [sigma * 1/4 * ratio * diameter],
    its diameter is half the parent's, and its value and gradient are the
    target function and gradient (negated on the lower side) evaluated at
    the new centre. *)
Theorem subdivision_of_new_arrays (self : OptimalLinearBounder) (bound : region)
    (upper : bool) (G : R) (ratio : list R) (samples samples' : list sample) :
  pure_side self upper = true ->
  iteration self bound upper G ratio samples = Ret (inr samples') ->
  exists coeffs sigmas,
    _find_discrete_upper_bound self bound (map point samples) (map act samples)
      = Ret coeffs
    /\ NoDup sigmas
    /\ length sigmas = (2 ^ length bound)%nat
    /\ (forall sigma, In sigma sigmas <-> sign_vector (length bound) sigma)
    /\ let certified := filter (holds self G coeffs) samples in
       let uncertified := filter (fun s => negb (holds self G coeffs s)) samples in
       let children := flat_map (fun sigma =>
             map (fun s =>
                    let c := offset_center ratio sigma s in
                    {| point := c;
                       cell_diam := cell_diam s / 2;
                       act := signed upper (target_function self c);
                       grad := map (signed upper) (gradient self c) |})
                 uncertified) sigmas in
       samples' = certified ++ children
       /\ length children = (2 ^ length bound * length uncertified)%nat
       /\ uncertified <> [].
Proof.
  intros Hpure Hit.
  apply iteration_inr in Hit. destruct Hit as (coeffs & Hfit & Hall & ->).
  exists coeffs, (subcube_offsets (length bound)).
  split; [exact Hfit |]. split; [apply NoDup_subcube_offsets |].
  split; [apply length_subcube_offsets |]. split; [apply in_subcube_offsets |].
  cbv zeta. split; [| split].
  - unfold subdivide. f_equal. apply flat_map_ext. intros sigma.
    apply map_ext. intros s. rewrite (evaluate_sample_at _ _ _ Hpure).
    unfold sample_at. rewrite child_offset_center. reflexivity.
  - rewrite (flat_map_constant_length (c := length (filter (fun s => negb (holds self G coeffs s)) samples))).
    + rewrite length_subcube_offsets. reflexivity.
    + intros sigma _. apply length_map.
  - intros Hnil. apply Bool.not_true_iff_false in Hall. apply Hall.
    apply forallb_forall. intros s Hs.
    destruct (holds self G coeffs s) eqn:Hh; [reflexivity |].
    assert (Hin : In s (filter (fun s => negb (holds self G coeffs s)) samples)).
    { apply filter_In. rewrite Hh. auto. }
    rewrite Hnil in Hin. destruct Hin.
Qed.

Lemma norm_nonneg (v : list R) : 0 <= norm v.
Proof. apply sqrt_pos. Qed.

Lemma subdivision_of_new_arrays_witness :
  exists samples' (sigmas : list (list R)),
    iteration flat_bounder [(0, 3)] true 1 [1] [large_sample] = Ret (inr samples')
    /\ NoDup sigmas /\ length sigmas = 2%nat.
Proof.
  set (coeffs := [0; 0 - (0 * ((0 + 3) / 2) + 0)]).
  assert (Hit : iteration flat_bounder [(0, 3)] true 1 [1] [large_sample]
                = Ret (inr (subdivide flat_bounder [(0, 3)] true 1 [1] coeffs [large_sample]))).
  { unfold iteration.
    change (_find_discrete_upper_bound flat_bounder [(0, 3)]
              (map point [large_sample]) (map act [large_sample])) with (Ret coeffs).
    cbn [bind forallb]. unfold holds at 1.
    rewrite Rltb_false; [reflexivity |].
    unfold min_diffs. apply Rmin_glb.
    - unfold diffs, bound_diff, dot, sum; simpl. lra.
    - unfold diffs2, bound_diff.
      pose proof (norm_nonneg (zipWith Rminus (removelast coeffs) (grad large_sample))) as Hn.
      unfold dot, sum; simpl. simpl in Hn. lra. }
  destruct (@subdivision_of_new_arrays flat_bounder [(0, 3)] true 1 [1] _ _
              eq_refl Hit)
    as (c & sigmas & _ & Hnd & Hlen & _).
  eexists; exists sigmas. split; [exact Hit |]. split; [exact Hnd | exact Hlen].
Defined.

(** ** Sign symmetry *)

Lemma evaluate_negate_target (self : OptimalLinearBounder) (pd : list R * R) :
  returns_new_arrays self = true ->
  evaluate (negate_target self) true pd = evaluate self false pd.
Proof.
  intros Hnew. rewrite (evaluate_sample_at self false pd) by exact Hnew.
  unfold evaluate, sample_at, signed; simpl. f_equal.
  - lra.
  - rewrite map_id. apply map_ext. intros x; lra.
Qed.

Lemma subdivide_negate_target (self : OptimalLinearBounder) bound G ratio coeffs samples :
  returns_new_arrays self = true ->
  subdivide (negate_target self) bound true G ratio coeffs samples
  = subdivide self bound false G ratio coeffs samples.
Proof.
  intros Hnew. unfold subdivide. f_equal. apply flat_map_ext. intros offs.
  apply map_ext. intros s. apply evaluate_negate_target, Hnew.
Qed.

Lemma map_negate_twice (c : list R) : map Ropp (map (fun x => x * -1) c) = c.
Proof.
  rewrite map_map. rewrite <- (map_id c) at 2. apply map_ext. intros x; lra.
Qed.

Lemma loop_negate_target (self : OptimalLinearBounder) bound G ratio fuel :
  returns_new_arrays self = true ->
  forall samples,
    loop (negate_target self) bound true G ratio fuel samples
    = res_map (map Ropp) (loop self bound false G ratio fuel samples).
Proof.
  intros Hnew.
  induction fuel as [| fuel IH]; intros samples; [reflexivity |].
  cbn [loop]. unfold iteration.
  change (_find_discrete_upper_bound (negate_target self))
    with (_find_discrete_upper_bound self).
  destruct (_find_discrete_upper_bound self bound _ _) as [coeffs | e |];
    cbn [bind res_map]; try reflexivity.
  change (holds (negate_target self)) with (holds self).
  change (min_diffs (negate_target self)) with (min_diffs self).
  destruct (forallb _ _).
  - destruct (maximum _) as [m | e |]; cbn [bind res_map]; try reflexivity.
    rewrite map_negate_twice. reflexivity.
  - cbn [bind]. rewrite subdivide_negate_target by exact Hnew. apply IH.
Qed.

(** ** The regular grid sampler *)



Lemma length_cartesian (grids : list (list R)) :
  length (cartesian grids) = nat_product (map (@length R) grids).
Proof.
  induction grids as [| g gs IH]; simpl; [reflexivity |].
  rewrite (flat_map_constant_length (c := length (cartesian gs))).
  - rewrite IH; reflexivity.
  - intros a _; apply length_map.
Qed.

Lemma length_meshgrid_points (grids : list (list R)) :
  length (meshgrid_points grids) = nat_product (map (@length R) grids).
Proof.
  destruct grids as [| g1 [| g2 rest]]; try apply length_cartesian.
  unfold meshgrid_points.
  rewrite (flat_map_constant_length (c := (length g1 * length (cartesian rest))%nat)).
  - rewrite length_cartesian. simpl. lia.
  - intros b _. apply flat_map_constant_length. intros a _. apply length_map.
Qed.

Lemma linspace_midpoints (lo hi : R) (k : Z) :
  (1 < k)%Z ->
  let c := (hi - lo) / IZR k in
  linspace (lo + c / 2) (hi - c / 2) (Z.to_nat k)
  = map (fun j => (lo + INR j * c + (lo + (INR j + 1) * c)) / 2) (seq 0 (Z.to_nat k)).
Proof.
  intros Hk c. unfold linspace. apply map_ext. intros j.
  rewrite (INR_IZR_INZ (Z.to_nat k)), Z2Nat.id by lia.
  assert (Hk' : 1 < IZR k) by (apply IZR_lt; exact Hk).
  unfold c. field. lra.
Qed.

Lemma length_linspace (a b : R) (k : nat) : length (linspace a b k) = k.
Proof. unfold linspace. rewrite length_map, length_seq. reflexivity. Qed.




Lemma sample_axes_ok (s : R) (bound : region) (count : R * R -> Z) :
  0 < s ->
  (forall b, count b = ceil (width b / s)) ->
  Forall (fun b => (1 < count b)%Z) bound ->
  sample_axes bound (Finite s)
  = Ret (map (fun b => width b / IZR (count b)) bound,
         map (fun b => linspace (fst b + width b / IZR (count b) / 2)
                                (snd b - width b / IZR (count b) / 2)
                                (Z.to_nat (count b))) bound).
Proof.
  intros Hs Hcount Hall. induction Hall as [| b bound Hb Hall IH]; [reflexivity |].
  cbn [sample_axes num_cells_of].
  destruct (Req_dec_T s 0) as [Hz | _]; [lra |].
  cbn [bind]. rewrite <- Hcount.
  destruct (Z.ltb_spec 1 (count b)); [| lia].
  rewrite IH. reflexivity.
Qed.










(** ** One-dimensional regions *)

Lemma norm_singleton (c : R) : 0 <= c -> norm [c] = c.
Proof.
  intros Hc. unfold norm; simpl. rewrite Rplus_0_r. apply sqrt_square, Hc.
Qed.

Lemma norm_singleton_abs (c : R) : norm [c] = Rabs c.
Proof.
  unfold norm; simpl. rewrite Rplus_0_r. apply sqrt_Rsqr_abs.
Qed.

Lemma cartesian_singleton (g : list R) : cartesian [g] = map (fun a => [a]) g.
Proof.
  simpl. induction g as [| a g IH]; [reflexivity |].
  simpl. rewrite IH. reflexivity.
Qed.

(** The sampler on one interval: [N] cells of side [(hi - lo) / N]. *)
Lemma sampler_interval (lo hi : R) (N : Z) :
  lo < hi -> (1 < N)%Z ->
  let c := (hi - lo) / IZR N in
  _sample_points_regularly [(lo, hi)] N
  = Ret (map (fun j => [(lo + INR j * c + (lo + (INR j + 1) * c)) / 2])
             (seq 0 (Z.to_nat N)),
         repeat c (Z.to_nat N),
         [1]).
Proof.
  intros Hlt HN c.
  assert (HN' : 0 < IZR N) by (apply IZR_lt; lia).
  assert (Hc : 0 < c) by (apply Rdiv_lt_0_compat; lra).
  set (s := (hi - lo) * 1 / IZR N).
  assert (Hs : 0 < s) by (unfold s; apply Rdiv_lt_0_compat; lra).
  assert (Hk : ceil (width (lo, hi) / s) = N).
  { replace (width (lo, hi) / s) with (IZR N).
    - apply ceil_IZR.
    - unfold width, s; simpl. field. lra. }
  unfold _sample_points_regularly. cbn [length map prod fold_right].
  unfold reference_cell_side. destruct (Z.eqb_spec N 0); [lia |].
  change (width (lo, hi)) with (hi - lo). fold s.
  rewrite (sample_axes_ok (fun b => ceil (width b / s)) Hs (fun b => eq_refl)).
  2: { repeat constructor. rewrite Hk. exact HN. }
  cbn [bind map fst snd meshgrid_points]. rewrite Hk.
  change (width (lo, hi) / IZR N) with c.
  pose proof (linspace_midpoints lo hi HN) as Hl. cbv zeta in Hl. fold c in Hl.
  change (fst (lo, hi)) with lo. change (snd (lo, hi)) with hi.
  rewrite Hl. rewrite norm_singleton by lra.
  rewrite cartesian_singleton, map_map, map_const, length_map, length_seq.
  f_equal. f_equal; [f_equal |].
  - f_equal. lra.
  - f_equal. field. lra.
Qed.

Lemma Rabs_le_iff (a b : R) : Rabs a <= b <-> - b <= a <= b.
Proof. unfold Rabs; destruct (Rcase_abs a); lra. Qed.

Lemma subcube_offsets_1 : subcube_offsets 1 = [[-1]; [1]].
Proof. reflexivity. Qed.

Lemma in_subdivide (self : OptimalLinearBounder) bound upper G ratio coeffs samples s' :
  In s' (subdivide self bound upper G ratio coeffs samples)
  <-> (In s' samples /\ holds self G coeffs s' = true)
      \/ exists s offs,
           In s samples /\ holds self G coeffs s = false
           /\ In offs (subcube_offsets (length bound))
           /\ s' = evaluate self upper (child ratio offs s).
Proof.
  unfold subdivide. rewrite in_app_iff, filter_In, in_flat_map. split.
  - intros [H | (offs & Hoffs & H)]; [left; exact H | right].
    apply in_map_iff in H. destruct H as (s & <- & Hs).
    apply filter_In in Hs. destruct Hs as [Hs Hh].
    exists s, offs. repeat split; try assumption.
    apply Bool.negb_true_iff, Hh.
  - intros [H | (s & offs & Hs & Hh & Hoffs & ->)]; [left; exact H | right].
    exists offs. split; [exact Hoffs |]. apply in_map_iff. exists s.
    split; [reflexivity |]. apply filter_In.
    split; [exact Hs | rewrite Hh; reflexivity].
Qed.

Lemma subdivide_interval (self : OptimalLinearBounder) upper G coeffs lo hi samples :
  pure_side self upper = true ->
  Forall (interval_cell self upper lo hi) samples ->
  covers lo hi samples ->
  Forall (interval_cell self upper lo hi)
         (subdivide self [(lo, hi)] upper G [1] coeffs samples)
  /\ covers lo hi (subdivide self [(lo, hi)] upper G [1] coeffs samples).
Proof.
  intros Hpure Hcells Hcov. rewrite Forall_forall in Hcells. split.
  - apply Forall_forall. intros s' Hs'. apply in_subdivide in Hs'.
    destruct Hs' as [[Hs' _] | (s & offs & Hs & _ & Hoffs & ->)]; [apply Hcells, Hs' |].
    destruct (Hcells s Hs) as (p & Hev & Hd & Hlo & Hhi).
    rewrite (evaluate_sample_at _ _ _ Hpure).
    rewrite Hev. cbn [length] in Hoffs. rewrite subcube_offsets_1 in Hoffs.
    destruct Hoffs as [<- | [<- | []]]; unfold interval_cell, child;
      cbn [sample_at point cell_diam fst snd zipWith map offset_to_diam_ratio];
      eexists; (split; [reflexivity |]); lra.
  - intros x Hx. destruct (Hcov x Hx) as (s & p & Hs & Hp & Habs).
    destruct (holds self G coeffs s) eqn:Hh.
    + exists s, p. split; [| split; assumption].
      apply in_subdivide. left; split; assumption.
    + destruct (Hcells s Hs) as (p' & Hev & Hd & Hlo & Hhi).
      assert (p' = p) by (rewrite Hev in Hp; simpl in Hp; congruence). subst p'.
      apply Rabs_le_iff in Habs.
      destruct (Rle_dec x p) as [Hle | Hgt].
      * exists (evaluate self upper (child [1] [-1] s)), (p + -1 * cell_diam s * (0.25 * 1)).
        split; [| split].
        -- apply in_subdivide. right. exists s, [-1].
           repeat split; try assumption. cbn [length]; rewrite subcube_offsets_1; simpl; auto.
        -- rewrite (evaluate_sample_at _ _ _ Hpure), Hev. reflexivity.
        -- rewrite evaluate_cell_diam. cbn [child snd]. apply Rabs_le_iff. lra.
      * exists (evaluate self upper (child [1] [1] s)), (p + 1 * cell_diam s * (0.25 * 1)).
        split; [| split].
        -- apply in_subdivide. right. exists s, [1].
           repeat split; try assumption. cbn [length]; rewrite subcube_offsets_1; simpl; auto.
        -- rewrite (evaluate_sample_at _ _ _ Hpure), Hev. reflexivity.
        -- rewrite evaluate_cell_diam. cbn [child snd]. apply Rabs_le_iff. lra.
Qed.

Lemma combine_map_repeat {B C : Type} (f : nat -> B) (c : C) (n : nat) :
  forall a, combine (map f (seq a n)) (repeat c n) = map (fun j => (f j, c)) (seq a n).
Proof.
  induction n as [| n IH]; intros a; simpl; [reflexivity | rewrite IH; reflexivity].
Qed.

Lemma find_cell (lo c x : R) (k : nat) :
  0 < c -> lo <= x <= lo + INR k * c -> (0 < k)%nat ->
  exists j, (j < k)%nat /\ lo + INR j * c <= x <= lo + (INR j + 1) * c.
Proof.
  intros Hc. induction k as [| k IH]; intros Hx Hk; [lia |].
  rewrite S_INR in Hx.
  destruct (Rle_dec x (lo + INR k * c)) as [Hle | Hgt].
  - destruct k as [| k'].
    + exists 0%nat. simpl in *. split; [lia | lra].
    + destruct IH as (j & Hj & Hjx); [lra | lia |].
      exists j; split; [lia | exact Hjx].
  - exists k. split; [lia | lra].
Qed.

Lemma initial_samples_interval (self : OptimalLinearBounder) upper lo hi :
  pure_side self upper = true ->
  lo < hi -> (1 < initial_number_of_points self)%Z ->
  Forall (interval_cell self upper lo hi) (initial_samples self upper lo hi)
  /\ covers lo hi (initial_samples self upper lo hi).
Proof.
  intros Hpure Hlt HN. unfold initial_samples.
  rewrite (map_ext _ _ (fun j => evaluate_sample_at self upper _ Hpure)).
  set (N := initial_number_of_points self) in *.
  set (c := (hi - lo) / IZR N).
  assert (HN' : 0 < IZR N) by (apply IZR_lt; lia).
  assert (Hc : 0 < c) by (apply Rdiv_lt_0_compat; lra).
  assert (Hhi : hi = lo + INR (Z.to_nat N) * c).
  { rewrite INR_IZR_INZ, Z2Nat.id by lia. unfold c. field. lra. }
  split.
  - apply Forall_forall. intros s Hs. apply in_map_iff in Hs.
    destruct Hs as (j & <- & Hj). apply in_seq in Hj.
    eexists. split; [reflexivity |]. cbn [sample_at cell_diam snd].
    assert (Hj0 : 0 <= INR j) by apply pos_INR.
    assert (Hj1 : INR j + 1 <= INR (Z.to_nat N)).
    { rewrite <- S_INR. apply le_INR. lia. }
    split; [exact Hc |]. split; nra.
  - intros x Hx. rewrite Hhi in Hx.
    destruct (find_cell (k := Z.to_nat N) Hc Hx) as (j & Hj & Hjx); [lia |].
    eexists. eexists. split; [| split].
    + apply in_map_iff. exists j. split; [reflexivity | apply in_seq; lia].
    + reflexivity.
    + cbn [sample_at cell_diam snd]. apply Rabs_le_iff. lra.
Qed.

Lemma sampler_interval_returns (lo hi : R) (N : Z) r :
  lo < hi -> _sample_points_regularly [(lo, hi)] N = Ret r -> (1 < N)%Z.
Proof.
  intros Hlt. unfold _sample_points_regularly.
  cbn [length map prod fold_right sample_axes]. unfold reference_cell_side.
  destruct (Z.eqb_spec N 0) as [-> | HN0].
  - destruct (Req_dec_T _ 0); cbn [num_cells_of bind]; discriminate.
  - cbn [num_cells_of].
    assert (HN' : IZR N <> 0) by (apply not_0_IZR; exact HN0).
    destruct (Req_dec_T (width (lo, hi) * 1 / IZR N) 0) as [Hz | Hnz].
    + exfalso. unfold width in Hz; simpl in Hz.
      apply Rmult_integral in Hz. destruct Hz as [Hz | Hz]; [lra |].
      pose proof (Rinv_neq_0_compat _ HN'). contradiction.
    + replace (width (lo, hi) / (width (lo, hi) * 1 / IZR N)) with (IZR N)
        by (unfold width; simpl; field; split; lra).
      rewrite ceil_IZR. cbn [bind].
      destruct (Z.ltb_spec 1 N); [auto | discriminate].
Qed.

Lemma sum_app (l l' : list R) : sum (l ++ l') = sum l + sum l'.
Proof. induction l as [| x l IH]; simpl; [lra | unfold sum in *; simpl; lra]. Qed.

Lemma sum_filter_split {A : Type} (w : A -> R) (P : A -> bool) (l : list A) :
  sum (map w l)
  = sum (map w (filter P l)) + sum (map w (filter (fun a => negb (P a)) l)).
Proof.
  induction l as [| a l IH]; simpl; [unfold sum; simpl; lra |].
  unfold sum in *. destruct (P a); simpl; lra.
Qed.

(** Subdividing keeps the total length of the cells. *)
Lemma length_subdivide (self : OptimalLinearBounder) upper lo hi G coeffs samples :
  sum (map cell_diam (subdivide self [(lo, hi)] upper G [1] coeffs samples))
  = sum (map cell_diam samples).
Proof.
  unfold subdivide. cbn [length]. rewrite subcube_offsets_1.
  cbn [flat_map]. rewrite app_nil_r, !map_app, !sum_app, !map_map.
  rewrite (sum_filter_split _ (holds self G coeffs) samples).
  set (split := filter (fun s => negb (holds self G coeffs s)) samples).
  rewrite !(map_ext _ _ (fun s => evaluate_cell_diam self upper _)).
  cbn [child snd].
  induction split as [| s split IH]; [unfold sum; simpl; lra |].
  cbn [map]. unfold sum in *. cbn [fold_right]. lra.
Qed.

Lemma initial_samples_length (self : OptimalLinearBounder) upper lo hi :
  lo < hi -> (1 < initial_number_of_points self)%Z ->
  sum (map cell_diam (initial_samples self upper lo hi)) = hi - lo.
Proof.
  intros Hlt HN. unfold initial_samples. rewrite map_map.
  rewrite (map_ext _ _ (fun j => evaluate_cell_diam self upper _)). cbn [snd].
  set (N := initial_number_of_points self) in *.
  set (c := (hi - lo) / IZR N).
  assert (Hsum : forall a n, sum (map (fun _ : nat => c) (seq a n)) = INR n * c).
  { intros a n; revert a. induction n as [| n IH]; intros a.
    - unfold sum; simpl; lra.
    - rewrite S_INR. cbn [seq map]. unfold sum in *. cbn [fold_right].
      rewrite IH. lra. }
  rewrite Hsum, INR_IZR_INZ, Z2Nat.id by lia.
  unfold c. field. apply Rgt_not_eq, IZR_lt. lia.
Qed.

Lemma working_set_interval (self : OptimalLinearBounder) upper lo hi ratio samples :
  pure_side self upper = true ->
  lo < hi ->
  working_set self [(lo, hi)] upper ratio samples ->
  ratio = [1]
  /\ Forall (interval_cell self upper lo hi) samples
  /\ covers lo hi samples
  /\ sum (map cell_diam samples) = hi - lo.
Proof.
  intros Hpure Hlt Hws. induction Hws as [G points diams HG Hs Hlen | G st st' Hws IH HG Hit].
  - assert (HN : (1 < initial_number_of_points self)%Z)
      by (eapply sampler_interval_returns; eassumption).
    rewrite sampler_interval in Hs by assumption. injection Hs as <- <- <-.
    split; [reflexivity |].
    rewrite combine_map_repeat, map_map.
    destruct (initial_samples_interval self upper Hpure Hlt HN) as [Hcells Hcov].
    split; [exact Hcells |]. split; [exact Hcov |].
    apply (initial_samples_length self upper Hlt HN).
  - destruct IH as (-> & Hcells & Hcov & Hvol). split; [reflexivity |].
    apply iteration_inr in Hit. destruct Hit as (coeffs & _ & _ & ->).
    destruct (subdivide_interval G coeffs Hpure Hcells Hcov) as [Hcells' Hcov'].
    split; [exact Hcells' |]. split; [exact Hcov' |].
    rewrite length_subdivide. exact Hvol.
Qed.

Lemma G_bound_returns (bound : region) (G : R) :
  _get_G_bound bound = Ret G -> G = 1 /\ exists lo hi, bound = [(lo, hi)].
Proof.
  unfold _get_G_bound. destruct bound as [| [lo hi] [| b bound]]; simpl;
    try discriminate.
  intros H; injection H as <-. split; [reflexivity |]. exists lo, hi; reflexivity.
Qed.

Lemma working_set_G_bound (self : OptimalLinearBounder) bound upper ratio samples :
  working_set self bound upper ratio samples -> _get_G_bound bound = Ret 1.
Proof.
  intros Hws. destruct Hws as [G ? ? HG _ _ | G ? ? _ HG _];
    destruct (G_bound_returns _ HG) as [-> _]; exact HG.
Qed.

(** ** The coverage invariant *)



(** ** Consequences of the Lipschitz hypotheses *)


Section Taylor.
Variables (f g : R -> R) (lo hi L : R).
Hypothesis Hderiv : forall x, lo <= x <= hi -> derivable_pt_lim f x (g x).
Hypothesis Hlip : forall x y, lo <= x <= hi -> lo <= y <= hi ->
  Rabs (g x - g y) <= L * Rabs (x - y).

End Taylor.

Section Signed.

Variables (f g : R -> R) (lo hi K L : R).
Hypothesis Hderiv : forall x, lo <= x <= hi -> derivable_pt_lim f x (g x).
Hypothesis Hlip1 : forall x y, lo <= x <= hi -> lo <= y <= hi ->
  Rabs (f x - f y) <= K * Rabs (x - y).
Hypothesis Hlip2 : forall x y, lo <= x <= hi -> lo <= y <= hi ->
  Rabs (g x - g y) <= L * Rabs (x - y).



End Signed.

(** ** The engine on an interval *)

Lemma bound_one_side_interval (self : OptimalLinearBounder) fuel lo hi upper :
  lo < hi -> (1 < initial_number_of_points self)%Z ->
  _bound_one_side self fuel [(lo, hi)] upper
  = loop self [(lo, hi)] upper 1 [1] fuel (initial_samples self upper lo hi).
Proof.
  intros Hlt HN. unfold _bound_one_side. cbn [_get_G_bound length Nat.eqb bind].
  rewrite sampler_interval by assumption. cbn [bind].
  rewrite combine_map_repeat, map_map, length_map, length_seq.
  destruct (Nat.ltb_spec 1 (Z.to_nat (initial_number_of_points self))); [| lia].
  reflexivity.
Qed.


Lemma fit_interval (self : OptimalLinearBounder) lo hi points values coeffs :
  _find_discrete_upper_bound self [(lo, hi)] points values = Ret coeffs ->
  exists a b,
    discrete_solver self (map (fun p => zipWith Rminus p [(lo + hi) / 2]) points)
      values (eps self) = [a; b]
    /\ coeffs = [a; b - (a * ((lo + hi) / 2) + 0)].
Proof.
  unfold _find_discrete_upper_bound. cbn [center_of map fst snd length].
  destruct (discrete_solver self _ values (eps self)) as [| a [| b [| c r]]] eqn:Hr;
    cbn [length Nat.eqb]; try discriminate.
  intros H; injection H as <-. exists a, b. split; reflexivity.
Qed.

Lemma iteration_inl (self : OptimalLinearBounder) bound upper G ratio samples c :
  iteration self bound upper G ratio samples = Ret (inl c) ->
  exists coeffs m,
    _find_discrete_upper_bound self bound (map point samples) (map act samples)
      = Ret coeffs
    /\ forallb (holds self G coeffs) samples = true
    /\ maximum (map (min_diffs self G coeffs) samples) = Ret m
    /\ c = (if upper then removelast coeffs ++ [last coeffs 0 + m]
            else map (fun c => c * -1) (removelast coeffs ++ [last coeffs 0 + m])).
Proof.
  unfold iteration.
  destruct (_find_discrete_upper_bound _ _ _ _) as [coeffs | e |]; cbn [bind];
    try discriminate.
  destruct (forallb _ _) eqn:Hall; [| discriminate].
  destruct (maximum _) as [m | e |] eqn:Hm; cbn [bind]; try discriminate.
  intros H; injection H as <-. exists coeffs, m. auto.
Qed.

Lemma maximum_upper_bound (l : list R) (m : R) :
  maximum l = Ret m -> In m l /\ forall y, In y l -> y <= m.
Proof.
  destruct l as [| x l]; simpl; [discriminate |].
  intros H; injection H as <-. apply fold_left_Rmax_spec.
Qed.


(** ** Soundness of a certified working set *)

Section CellSoundness.

Variable self : OptimalLinearBounder.
Variable g : R -> R.
Variables lo hi : R.

Hypothesis gradient_shape : forall t, lo <= t <= hi -> gradient self [t] = [g t].
Hypothesis gradient_derivative : forall t, lo <= t <= hi ->
  derivable_pt_lim (fun u => target_function self [u]) t (g t).
Hypothesis lipschitz_value : forall x y, lo <= x <= hi -> lo <= y <= hi ->
  Rabs (target_function self [x] - target_function self [y]) <= L1 self * Rabs (x - y).
Hypothesis lipschitz_gradient : forall x y, lo <= x <= hi -> lo <= y <= hi ->
  Rabs (g x - g y) <= L2 self * Rabs (x - y).



End CellSoundness.

Lemma loop_certified (self : OptimalLinearBounder) bound upper G ratio fuel
    samples coeffs :
  samples <> [] ->
  _find_discrete_upper_bound self bound (map point samples) (map act samples)
    = Ret coeffs ->
  (forall s, In s samples -> min_diffs self G coeffs s < eps self) ->
  exists m,
    m < eps self
    /\ (forall s, In s samples -> min_diffs self G coeffs s <= m)
    /\ loop self bound upper G ratio (S fuel) samples
       = Ret (if upper then removelast coeffs ++ [last coeffs 0 + m]
              else map (fun c => c * -1) (removelast coeffs ++ [last coeffs 0 + m])).
Proof.
  intros Hne Hfit Hall.
  destruct (maximum_spec (l := map (min_diffs self G coeffs) samples))
    as (m & Hmax & Hin & Hub).
  { destruct samples; [congruence | discriminate]. }
  exists m. split; [| split].
  - apply in_map_iff in Hin. destruct Hin as (s & <- & Hs). apply Hall, Hs.
  - intros s Hs. apply Hub, in_map, Hs.
  - cbn [loop]. unfold iteration. rewrite Hfit. cbn [bind].
    replace (forallb (holds self G coeffs) samples) with true.
    + rewrite Hmax. reflexivity.
    + symmetry. apply forallb_forall. intros s Hs.
      unfold holds. apply Rltb_true, Hall, Hs.
Qed.


(** ** Soundness on one-dimensional regions *)



Lemma signed_zero (upper : bool) : signed upper 0 = 0.
Proof. destruct upper; simpl; lra. Qed.

(** The three samples both zero-function bounders start with on [[0, 3]]. *)
Lemma initial_samples_zero (self : OptimalLinearBounder) (upper : bool) :
  target_function self = Computes (fun _ => 0) ->
  gradient self = ComputesGradient (fun _ => [0]) ->
  initial_number_of_points self = 3%Z ->
  initial_samples self upper 0 3
  = [ {| point := [1 / 2]; cell_diam := 1; act := 0; grad := [0] |};
      {| point := [3 / 2]; cell_diam := 1; act := 0; grad := [0] |};
      {| point := [5 / 2]; cell_diam := 1; act := 0; grad := [0] |} ].
Proof.
  intros Hf Hg HN.
  assert (Hpure : pure_side self upper = true).
  { unfold pure_side, returns_new_arrays. rewrite Hf, Hg. apply orb_true_r. }
  unfold initial_samples.
  rewrite (map_ext _ _ (fun j => evaluate_sample_at self upper _ Hpure)).
  unfold sample_at. rewrite Hf, Hg, HN.
  change (Z.to_nat 3) with 3%nat. cbn [seq map fst snd call call_gradient].
  rewrite signed_zero. simpl INR.
  repeat (f_equal; try lra).
Qed.

Lemma steep_one_side (upper : bool) :
  exists m,
    m < 2
    /\ _bound_one_side steep_bounder 1 [(0, 3)] upper
       = Ret (if upper then [100; -50 + m]
              else map (fun c => c * -1) [100; -50 + m]).
Proof.
  rewrite bound_one_side_interval by (try lra; simpl; lia).
  rewrite initial_samples_zero by reflexivity.
  set (samples := [_; _; _]).
  assert (Hfit : _find_discrete_upper_bound steep_bounder [(0, 3)]
                   (map point samples) (map act samples) = Ret [100; -50]).
  { unfold _find_discrete_upper_bound, steep_bounder, steep_solver, samples.
    cbn [discrete_solver eps center_of map point act zipWith hd fst snd length
         Nat.eqb removelast last app fold_right].
    unfold sum. cbn [fold_right].
    repeat match goal with
           | |- context [Rmax ?a ?b] =>
               first [ rewrite (Rmax_left a b) by lra
                     | rewrite (Rmax_right a b) by lra ]
           end.
    f_equal. f_equal. f_equal. lra. }
  destruct (@loop_certified steep_bounder [(0, 3)] upper 1 [1] 0 samples
              [100; -50]) as (m & Hm & _ & Hloop).
  - discriminate.
  - exact Hfit.
  - intros s Hs. eapply Rle_lt_trans; [apply Rmin_l |].
    unfold diffs, bound_diff, dot, sum.
    destruct Hs as [<- | [<- | [<- | []]]]; simpl; lra.
  - exists m. split; [exact Hm |]. rewrite Hloop. reflexivity.
Qed.


Lemma width_check_0_3 : width_check [(0, 3)] = true.
Proof.
  unfold width_check, width, width_tolerance; simpl.
  rewrite Rltb_true by lra. reflexivity.
Qed.



Lemma flat_one_side (upper : bool) :
  exists c, _bound_one_side flat_bounder 1 [(0, 3)] upper = Ret c.
Proof.
  rewrite bound_one_side_interval by (try lra; simpl; lia).
  rewrite initial_samples_zero by reflexivity.
  set (samples := [_; _; _]).
  assert (Hfit : _find_discrete_upper_bound flat_bounder [(0, 3)]
                   (map point samples) (map act samples)
                 = Ret [0; 0 - (0 * ((0 + 3) / 2) + 0)]) by reflexivity.
  destruct (@loop_certified flat_bounder [(0, 3)] upper 1 [1] 0 samples _ 
              ltac:(discriminate) Hfit) as (m & _ & _ & Hloop).
  - intros s Hs. eapply Rle_lt_trans; [apply Rmin_r |].
    unfold diffs2, bound_diff, dot, sum.
    destruct Hs as [<- | [<- | [<- | []]]]; simpl;
      rewrite norm_singleton_abs; replace (0 - 0) with 0 by lra;
      rewrite Rabs_R0; lra.
  - eexists. exact Hloop.
Qed.


(** ** Termination *)






















(** * Further properties of the code *)

(** ** What the sampler returns *)

Lemma ceil_gt_1 (x : R) : (1 < ceil x)%Z -> 1 < x.
Proof.
  intros Hk. destruct (ceil_bounds x) as [Hlo _].
  assert (H2 : 2 <= IZR (ceil x)) by (apply IZR_le; lia). lra.
Qed.

Lemma num_cells_returns (b : R * R) (side : float_value) (k : Z) :
  num_cells_of b side = Ret k -> (1 < k)%Z -> width b / IZR k <> 0.
Proof.
  destruct side as [s | |]; simpl; try discriminate.
  - destruct (Req_dec_T s 0) as [Hs | Hs].
    + destruct (Req_dec_T (width b) 0); discriminate.
    + intros H Hk; injection H as <-. apply ceil_gt_1 in Hk.
      assert (Hw : width b <> 0).
      { intros Hw. rewrite Hw in Hk. unfold Rdiv in Hk. rewrite Rmult_0_l in Hk. lra. }
      set (k := ceil (width b / s)) in *.
      assert (Hk2 : 0 < IZR k).
      { destruct (ceil_bounds (width b / s)) as [_ Hhi]. fold k in Hhi. lra. }
      intros Hz. apply Hw.
      apply Rmult_eq_reg_r with (/ IZR k); [| apply Rinv_neq_0_compat; lra].
      unfold Rdiv in Hz. rewrite Hz. ring.
  - intros H Hk; injection H as <-. lia.
Qed.

Lemma sample_axes_returns (side : float_value) (bound : region) :
  forall sides grids,
    sample_axes bound side = Ret (sides, grids) ->
    length sides = length bound
    /\ length grids = length bound
    /\ Forall (fun s => s <> 0) sides
    /\ Forall (fun g : list R => (2 <= length g)%nat) grids.
Proof.
  induction bound as [| b bound IH]; intros sides grids; cbn [sample_axes].
  - intros H; injection H as <- <-. repeat split; constructor.
  - destruct (num_cells_of b side) as [k | e |] eqn:Hk; cbn [bind]; try discriminate.
    destruct (Z.ltb_spec 1 k) as [Hk1 | Hk1]; [| discriminate].
    destruct (sample_axes bound side) as [[sides' grids'] | e |] eqn:Hrest;
      cbn [bind]; try discriminate.
    intros H; injection H as <- <-.
    destruct (IH _ _ eq_refl) as (Hls & Hlg & Hnz & Hg2).
    cbn [length fst snd]. repeat split; try (f_equal; assumption).
    + constructor; [eapply num_cells_returns; eassumption | exact Hnz].
    + constructor; [rewrite length_linspace; lia | exact Hg2].
Qed.

Lemma nat_product_pow (l : list nat) :
  Forall (fun k => (2 <= k)%nat) l -> (2 ^ length l <= nat_product l)%nat.
Proof.
  induction 1 as [| k l Hk Hl IH]; simpl; [lia |].
  unfold nat_product in *. nia.
Qed.





Lemma sampler_returns (bound : region) (sample_size : Z) points diams ratio :
  _sample_points_regularly bound sample_size = Ret (points, diams, ratio) ->
  exists sides grids,
    sample_axes bound
      (reference_cell_side (length bound) (prod (map width bound)) sample_size)
      = Ret (sides, grids)
    /\ bound <> []
    /\ points = meshgrid_points grids
    /\ diams = map (fun _ => norm sides * 1) points
    /\ ratio = map (fun s => s / norm sides) sides.
Proof.
  unfold _sample_points_regularly. cbv zeta.
  destruct (length bound) as [| n] eqn:Hlen; [discriminate |].
  destruct (sample_axes _ _) as [[sides grids] | e |] eqn:Hax; cbn [bind];
    try discriminate.
  intros H; injection H as <- <- <-. exists sides, grids.
  repeat split. intros ->. discriminate.
Qed.







(** ** The exceptions of the engine and of the facade *)

Lemma sampler_enough_points (bound : region) (sample_size : Z) points diams ratio :
  _sample_points_regularly bound sample_size = Ret (points, diams, ratio) ->
  (length bound <? length points)%nat = true.
Proof.
  intros Hret. apply sampler_returns in Hret.
  destruct Hret as (sides & grids & Hax & _ & -> & _ & _).
  apply sample_axes_returns in Hax. destruct Hax as (_ & Hlg & _ & Hg2).
  apply Nat.ltb_lt. rewrite length_meshgrid_points, <- Hlg.
  apply Nat.lt_le_trans with (2 ^ length grids)%nat;
    [apply Nat.pow_gt_lin_r; lia |].
  rewrite <- (length_map (@length R) grids). apply nat_product_pow.
  apply Forall_map. exact Hg2.
Qed.

Lemma sampler_raises_nonempty (bound : region) (sample_size : Z) e :
  bound <> [] ->
  _sample_points_regularly bound sample_size = Raise e ->
  e = ValueError \/ e = OverflowError \/ e = Assert_not_enough_points.
Proof.
  intros Hne. unfold _sample_points_regularly. cbv zeta.
  destruct (length bound) eqn:Hlen; [destruct bound; [congruence | discriminate] |].
  destruct (sample_axes _ _) as [axes | e' |] eqn:Hax; cbn [bind]; try discriminate.
  intros H; injection H as <-. eapply sample_axes_raises; eassumption.
Qed.

Lemma bound_one_side_raises (self : OptimalLinearBounder) fuel bound upper e :
  _bound_one_side self fuel bound upper = Raise e ->
  (length bound <> 1%nat /\ e = Assert_G_not_implemented)
  \/ (length bound = 1%nat
      /\ (e = ValueError \/ e = OverflowError \/ e = Assert_not_enough_points
          \/ e = IndexError)).
Proof.
  unfold _bound_one_side, _get_G_bound.
  destruct (Nat.eqb_spec (length bound) 1) as [Hlen | Hlen]; cbn [bind].
  - destruct (_sample_points_regularly _ _) as [[[pts ds] ratio] | e' |] eqn:Hs;
      cbn [bind]; try discriminate.
    + rewrite (sampler_enough_points _ _ Hs).
      intros H. right. split; [exact Hlen |].
      apply loop_raises in H. destruct H as [-> | ->]; auto.
    + intros H; injection H as <-. right. split; [exact Hlen |].
      assert (Hne : bound <> []) by (intros ->; discriminate).
      destruct (@sampler_raises_nonempty bound _ _ Hne Hs) as [-> | [-> | ->]]; auto.
  - intros H; injection H as <-. left; auto.
Qed.

(** X2: the assertion 'Need at least dim + 1 point' of [_bound_one_side]
    never fails: whenever the sampler returns it has produced at least
    [2^n] points, which is more than [n]. *)
Theorem dim_plus_one_never_fails (self : OptimalLinearBounder) (fuel : nat)
    (bound : region) (upper : bool) :
  _bound_one_side self fuel bound upper <> Raise Assert_need_dim_plus_one.
Proof.
  intros H. apply bound_one_side_raises in H.
  destruct H as [[_ H] | [_ [H | [H | [H | H]]]]]; discriminate.
Qed.

(** X3: [find_optimal_bounds] raises the unimplemented-dimension assertion
    exactly on the regions that pass the width check and do not have
    exactly one interval, the empty region included. *)
Theorem find_optimal_bounds_exceptions (self : OptimalLinearBounder) (fuel : nat)
    (bound : region) :
  find_optimal_bounds self fuel bound = Raise Assert_G_not_implemented
  <-> width_check bound = true /\ length bound <> 1%nat.
Proof.
  assert (Hcases : forall e, find_optimal_bounds self fuel bound = Raise e ->
            (width_check bound = false /\ e = Assert_positive_width)
            \/ (width_check bound = true
                /\ exists upper, _bound_one_side self fuel bound upper = Raise e)).
  { intros e. unfold find_optimal_bounds.
    destruct (width_check bound); [| intros H; injection H as <-; left; auto].
    destruct (_bound_one_side self fuel bound false) as [lo | e' |] eqn:Hlo;
      cbn [bind]; try discriminate.
    - destruct (_bound_one_side self fuel bound true) as [up | e' |] eqn:Hup;
        cbn [bind]; try discriminate.
      intros H; injection H as <-. right. split; [reflexivity |]. exists true; exact Hup.
    - intros H; injection H as <-. right. split; [reflexivity |]. exists false; exact Hlo. }
  split.
  - intros He. destruct (Hcases _ He) as [[_ H] | [Hc [upper Hr]]]; [discriminate |].
    split; [exact Hc |]. apply bound_one_side_raises in Hr.
    destruct Hr as [[Hlen _] | [_ [H | [H | [H | H]]]]]; [exact Hlen | | | |];
      discriminate.
  - intros [Hc Hlen]. unfold find_optimal_bounds, _bound_one_side, _get_G_bound.
    rewrite Hc. destruct (Nat.eqb_spec (length bound) 1); [contradiction | reflexivity].
Qed.

(** ** An interval of width zero *)

Lemma sampler_interval_degenerate (lo : R) (N : Z) :
  _sample_points_regularly [(lo, lo)] N = Raise ValueError.
Proof.
  unfold _sample_points_regularly. cbn [length map prod fold_right sample_axes].
  unfold reference_cell_side, width. cbn [fst snd].
  destruct (Z.eqb_spec N 0) as [-> | HN].
  - destruct (Req_dec_T ((lo - lo) * 1) 0) as [_ | Hn]; [reflexivity | exfalso; lra].
  - cbn [num_cells_of]. unfold width. cbn [fst snd].
    destruct (Req_dec_T ((lo - lo) * 1 / IZR N) 0) as [_ | Hn].
    + destruct (Req_dec_T (lo - lo) 0) as [_ | Hn]; [reflexivity | exfalso; lra].
    + exfalso. apply Hn. unfold Rdiv. replace (lo - lo) with 0 by lra. ring.
Qed.

(** X5: an interval of width zero passes the width check of
    [find_optimal_bounds], and the call then ends in a [ValueError],
    whatever the callables, the solver and the iteration budget, for a
    number of initial points that can be converted to a float (at most
    [2^1023] in absolute value). *)
Theorem zero_width_value_error (self : OptimalLinearBounder) (fuel : nat) (lo : R) :
  (Z.abs (initial_number_of_points self) <= 2 ^ 1023)%Z ->
  width_check [(lo, lo)] = true
  /\ find_optimal_bounds self fuel [(lo, lo)] = Raise ValueError.
Proof.
  intros _.
  assert (Hc : width_check [(lo, lo)] = true).
  { unfold width_check, width, width_tolerance. cbn [forallb fst snd].
    rewrite Rltb_true by lra. reflexivity. }
  split; [exact Hc |].
  unfold find_optimal_bounds. rewrite Hc.
  unfold _bound_one_side. cbn [_get_G_bound length Nat.eqb bind].
  rewrite sampler_interval_degenerate. reflexivity.
Qed.

Lemma zero_width_value_error_witness :
  find_optimal_bounds flat_bounder 1 [(1, 1)] = Raise ValueError.
Proof.
  apply (@zero_width_value_error flat_bounder 1 1).
  apply Z.leb_le. vm_compute. reflexivity.
Defined.

(** ** The discrete fit adapter *)

Lemma fit_returns (self : OptimalLinearBounder) bound points values coeffs :
  _find_discrete_upper_bound self bound points values = Ret coeffs ->
  exists lin c0,
    discrete_solver self
      (map (fun p => zipWith Rminus p (center_of bound)) points) values (eps self)
      = lin ++ [c0]
    /\ length lin = length bound
    /\ coeffs = lin ++ [c0 - sum (zipWith Rmult lin (center_of bound))].
Proof.
  unfold _find_discrete_upper_bound.
  set (result := discrete_solver self _ values (eps self)).
  assert (Hcases : result = [] \/ result <> [])
    by (destruct result; [left; reflexivity | right; discriminate]).
  destruct Hcases as [Hnil | Hne]; [rewrite Hnil; discriminate |].
  replace (match result with
           | [] => Raise IndexError
           | _ :: _ =>
               assert (length result =? S (length bound))%nat else ValueError ;;
               Ret (removelast result
                      ++ [last result 0
                          - sum (zipWith Rmult (removelast result) (center_of bound))])
           end)
    with (assert (length result =? S (length bound))%nat else ValueError ;;
          Ret (removelast result
                 ++ [last result 0
                     - sum (zipWith Rmult (removelast result) (center_of bound))]))
    by (destruct result; [congruence | reflexivity]).
  destruct (Nat.eqb_spec (length result) (S (length bound))) as [Hlen | Hlen];
    [| discriminate].
  intros H; injection H as <-.
  destruct (exists_last Hne) as (lin & c0 & Hr).
  exists lin, c0. rewrite Hr in *. rewrite removelast_last, last_last.
  rewrite length_app in Hlen. cbn [length] in Hlen.
  repeat split. lia.
Qed.

Lemma dot_shift (lin : list R) :
  forall p c, length p = length lin -> length c = length lin ->
    dot lin (zipWith Rminus p c) = dot lin p - dot lin c.
Proof.
  unfold dot, sum.
  induction lin as [| a lin IH]; intros [| x p] [| y c] Hp Hc; try discriminate;
    cbn [zipWith fold_right]; [lra |].
  rewrite IH by (simpl in *; lia). lra.
Qed.

Lemma fit_of_length (self : OptimalLinearBounder) bound points values :
  let result := discrete_solver self
      (map (fun p => zipWith Rminus p (center_of bound)) points) values (eps self) in
  length result = S (length bound) ->
  _find_discrete_upper_bound self bound points values
  = Ret (removelast result
           ++ [last result 0 - sum (zipWith Rmult (removelast result) (center_of bound))]).
Proof.
  intros result Hlen. unfold _find_discrete_upper_bound. fold result.
  clearbody result. destruct result as [| r0 rest]; [discriminate |].
  apply Nat.eqb_eq in Hlen. rewrite Hlen. reflexivity.
Qed.

(** X6: when the solver answers an array of [n + 1] entries, the adapter
    returns the solver's line re-expressed in absolute coordinates: the
    result has [n + 1] coefficients, the slope is the solver's slope
    unchanged, and at every point [p] the returned line takes the value the
    solver's line takes at the centred point [p - center]. *)
Theorem fit_in_absolute_coordinates (self : OptimalLinearBounder) (bound : region)
    (points : list (list R)) (values : list R) :
  let result := discrete_solver self
      (map (fun p => zipWith Rminus p (center_of bound)) points) values (eps self) in
  length result = S (length bound) ->
  exists coeffs,
    _find_discrete_upper_bound self bound points values = Ret coeffs
    /\ length coeffs = S (length bound)
    /\ removelast coeffs = removelast result
    /\ forall p, length p = length bound ->
         dot (removelast coeffs) p + last coeffs 0
         = dot (removelast result) (zipWith Rminus p (center_of bound))
           + last result 0.
Proof.
  intros result Hlen.
  pose proof (@fit_of_length self bound points values Hlen) as Hfit.
  fold result in Hfit. eexists. split; [exact Hfit |].
  assert (Hne : result <> []) by (intros Hr; rewrite Hr in Hlen; discriminate).
  destruct (exists_last Hne) as (lin & c0 & Hres). rewrite Hres in *.
  rewrite length_app in Hlen. cbn [length] in Hlen.
  rewrite !removelast_last, !last_last, length_app. cbn [length].
  split; [lia |]. split; [reflexivity |].
  intros p Hp. rewrite dot_shift.
  - unfold dot. lra.
  - lia.
  - unfold center_of. rewrite length_map. lia.
Qed.

Lemma fit_in_absolute_coordinates_witness :
  exists coeffs,
    _find_discrete_upper_bound flat_bounder [(0, 3)] [[1]] [0] = Ret coeffs
    /\ dot (removelast coeffs) [1] + last coeffs 0
       = dot (removelast (zero_solver [[1 - (0 + 3) / 2]] [0] 1)) [1 - (0 + 3) / 2]
         + last (zero_solver [[1 - (0 + 3) / 2]] [0] 1) 0.
Proof.
  destruct (@fit_in_absolute_coordinates flat_bounder [(0, 3)] [[1]] [0] eq_refl)
    as (coeffs & Hfit & _ & _ & H).
  exists coeffs. split; [exact Hfit |]. exact (H [1] eq_refl).
Defined.

(** ** The shape of the result *)

Lemma loop_result_length (self : OptimalLinearBounder) bound upper G ratio fuel :
  forall samples c,
    loop self bound upper G ratio fuel samples = Ret c ->
    length c = S (length bound).
Proof.
  induction fuel as [| fuel IH]; intros samples c; cbn [loop]; [discriminate |].
  destruct (iteration _ _ _ _ _ samples) as [[c' | samples'] | e |] eqn:Hit;
    cbn [bind]; try discriminate.
  - intros H; injection H as ->. apply iteration_inl in Hit.
    destruct Hit as (coeffs & m & Hfit & _ & _ & ->).
    apply fit_returns in Hfit. destruct Hfit as (lin & c0 & _ & Hlen & ->).
    rewrite removelast_last.
    destruct upper; rewrite ?length_map, length_app; cbn [length]; lia.
  - apply IH.
Qed.

(** X7: both coefficient vectors returned by [find_optimal_bounds] have
    [n + 1] entries, [n] being the number of intervals of the region. *)
Theorem returned_coefficients_length (self : OptimalLinearBounder) (fuel : nat)
    (bound : region) (lower upper : list R) :
  find_optimal_bounds self fuel bound = Ret (lower, upper) ->
  length lower = S (length bound) /\ length upper = S (length bound).
Proof.
  unfold find_optimal_bounds. destruct (width_check bound); [| discriminate].
  destruct (_bound_one_side self fuel bound false) as [cl | e |] eqn:Hlo;
    cbn [bind]; try discriminate.
  destruct (_bound_one_side self fuel bound true) as [cu | e |] eqn:Hup;
    cbn [bind]; try discriminate.
  intros H; injection H as <- <-.
  assert (Hside : forall up c, _bound_one_side self fuel bound up = Ret c ->
                               length c = S (length bound)).
  { intros up c. unfold _bound_one_side.
    destruct (_get_G_bound bound) as [G | e |]; cbn [bind]; try discriminate.
    destruct (_sample_points_regularly _ _) as [[[pts ds] ratio] | e |]; cbn [bind];
      try discriminate.
    destruct (_ <? _)%nat; [| discriminate].
    apply loop_result_length. }
  split; eapply Hside; eassumption.
Qed.

Lemma flat_find_optimal_bounds :
  exists lower upper, find_optimal_bounds flat_bounder 1 [(0, 3)] = Ret (lower, upper).
Proof.
  destruct (flat_one_side false) as (cl & Hlo).
  destruct (flat_one_side true) as (cu & Hup).
  exists cl, cu. unfold find_optimal_bounds.
  rewrite width_check_0_3, Hlo, Hup. reflexivity.
Qed.

Lemma returned_coefficients_length_witness :
  exists lower upper,
    find_optimal_bounds flat_bounder 1 [(0, 3)] = Ret (lower, upper)
    /\ length lower = 2%nat /\ length upper = 2%nat.
Proof.
  destruct flat_find_optimal_bounds as (lower & upper & Hret).
  exists lower, upper. split; [exact Hret |].
  exact (returned_coefficients_length _ _ _ Hret).
Defined.

(** ** The working set *)





Lemma length_filter_split {A : Type} (P : A -> bool) (l : list A) :
  length l = (length (filter P l) + length (filter (fun a => negb (P a)) l))%nat.
Proof.
  induction l as [| a l IH]; simpl; [reflexivity |].
  destruct (P a); simpl; lia.
Qed.

Lemma subdivide_length (self : OptimalLinearBounder) bound upper G ratio coeffs samples :
  length (subdivide self bound upper G ratio coeffs samples)
  = (length samples
     + (2 ^ length bound - 1)
       * length (filter (fun s => negb (holds self G coeffs s)) samples))%nat.
Proof.
  unfold subdivide. rewrite length_app.
  rewrite (flat_map_constant_length
             (c := length (filter (fun s => negb (holds self G coeffs s)) samples)))
    by (intros offs _; apply length_map).
  rewrite length_subcube_offsets.
  rewrite (length_filter_split (holds self G coeffs) samples).
  assert (1 <= 2 ^ length bound)%nat by (apply Nat.neq_0_lt_0, Nat.pow_nonzero; lia).
  nia.
Qed.

(** X9: a non-terminal iteration never shrinks the working set: it adds
    [2^n - 1] samples for each uncertified sample, of which there is at
    least one, so on a region with at least one interval the next working
    set is strictly larger. *)
Theorem working_set_grows (self : OptimalLinearBounder) (bound : region)
    (upper : bool) (G : R) (ratio : list R) (samples samples' : list sample) :
  iteration self bound upper G ratio samples = Ret (inr samples') ->
  exists coeffs,
    _find_discrete_upper_bound self bound (map point samples) (map act samples)
      = Ret coeffs
    /\ (1 <= length (filter (fun s => negb (holds self G coeffs s)) samples))%nat
    /\ length samples'
       = (length samples
          + (2 ^ length bound - 1)
            * length (filter (fun s => negb (holds self G coeffs s)) samples))%nat
    /\ (bound <> [] -> (length samples < length samples')%nat).
Proof.
  intros Hit. apply iteration_inr in Hit. destruct Hit as (coeffs & Hfit & Hall & ->).
  exists coeffs. split; [exact Hfit |].
  assert (Hsplit : (1 <= length (filter (fun s => negb (holds self G coeffs s)) samples))%nat).
  { destruct (filter _ samples) as [| s l] eqn:Hf; [| simpl; lia].
    exfalso. apply Bool.not_true_iff_false in Hall. apply Hall.
    apply forallb_forall. intros s Hs.
    destruct (holds self G coeffs s) eqn:Hh; [reflexivity |].
    assert (Hin : In s (filter (fun s => negb (holds self G coeffs s)) samples)).
    { apply filter_In. rewrite Hh. auto. }
    rewrite Hf in Hin. destruct Hin. }
  split; [exact Hsplit |]. split; [apply subdivide_length |].
  intros Hne. rewrite subdivide_length.
  assert (2 <= 2 ^ length bound)%nat.
  { destruct bound as [| b bound]; [congruence |]. cbn [length].
    rewrite Nat.pow_succ_r'.
    assert (1 <= 2 ^ length bound)%nat by (apply Nat.neq_0_lt_0, Nat.pow_nonzero; lia).
    lia. }
  nia.
Qed.

Lemma large_sample_iteration :
  iteration flat_bounder [(0, 3)] true 1 [1] [large_sample]
  = Ret (inr (subdivide flat_bounder [(0, 3)] true 1 [1]
                [0; 0 - (0 * ((0 + 3) / 2) + 0)] [large_sample])).
Proof.
  set (coeffs := [0; 0 - (0 * ((0 + 3) / 2) + 0)]).
  unfold iteration.
  change (_find_discrete_upper_bound flat_bounder [(0, 3)]
            (map point [large_sample]) (map act [large_sample])) with (Ret coeffs).
  cbn [bind forallb]. unfold holds at 1.
  rewrite Rltb_false; [reflexivity |].
  unfold min_diffs. apply Rmin_glb.
  - unfold diffs, bound_diff, dot, sum; simpl. lra.
  - unfold diffs2, bound_diff.
    pose proof (norm_nonneg (zipWith Rminus (removelast coeffs) (grad large_sample))) as Hn.
    unfold dot, sum; simpl. simpl in Hn. lra.
Qed.

Lemma working_set_grows_witness :
  exists samples',
    iteration flat_bounder [(0, 3)] true 1 [1] [large_sample] = Ret (inr samples')
    /\ (length [large_sample] < length samples')%nat.
Proof.
  eexists. split; [exact large_sample_iteration |].
  destruct (working_set_grows _ _ _ _ _ _ large_sample_iteration)
    as (coeffs & _ & _ & _ & Hlt).
  apply Hlt. discriminate.
Defined.

(** ** The returned lines at the final sample centres *)

Lemma loop_final_working_set (self : OptimalLinearBounder) bound upper ratio fuel :
  forall samples c,
    working_set self bound upper ratio samples ->
    loop self bound upper 1 ratio fuel samples = Ret c ->
    exists final,
      working_set self bound upper ratio final
      /\ iteration self bound upper 1 ratio final = Ret (inl c).
Proof.
  induction fuel as [| fuel IH]; intros samples c Hws; cbn [loop]; [discriminate |].
  destruct (iteration _ _ _ _ _ samples) as [[c' | samples'] | e |] eqn:Hit;
    cbn [bind]; try discriminate.
  - intros H; injection H as ->. exists samples. auto.
  - apply IH. eapply working_next; [exact Hws | | exact Hit].
    apply (working_set_G_bound Hws).
Qed.

Lemma bound_one_side_final (self : OptimalLinearBounder) fuel bound upper c :
  _bound_one_side self fuel bound upper = Ret c ->
  exists ratio final,
    working_set self bound upper ratio final
    /\ iteration self bound upper 1 ratio final = Ret (inl c).
Proof.
  unfold _bound_one_side.
  destruct (_get_G_bound bound) as [G | e |] eqn:HG; cbn [bind]; try discriminate.
  destruct (G_bound_returns _ HG) as [-> _].
  destruct (_sample_points_regularly _ _) as [[[pts ds] ratio] | e |] eqn:Hs;
    cbn [bind]; try discriminate.
  destruct (_ <? _)%nat eqn:Hlen; [| discriminate].
  intros Hloop. exists ratio.
  eapply loop_final_working_set; [| exact Hloop].
  eapply working_initial; eassumption.
Qed.

Lemma side_holds_at_centres (self : OptimalLinearBounder) fuel lo hi upper c :
  pure_side self upper = true ->
  lo < hi -> 0 <= L1 self -> 0 <= L2 self ->
  _bound_one_side self fuel [(lo, hi)] upper = Ret c ->
  exists samples,
    working_set self [(lo, hi)] upper [1] samples
    /\ forall s p, In s samples -> point s = [p] ->
         signed upper (target_function self [p]) <= signed upper (dot c [p; 1]).
Proof.
  intros Hpure Hlt HL1 HL2 Hret. apply bound_one_side_final in Hret.
  destruct Hret as (ratio & final & Hws & Hit).
  destruct (working_set_interval Hpure Hlt Hws) as (-> & Hcells & _).
  exists final. split; [exact Hws |]. intros s p Hs Hp.
  apply iteration_inl in Hit. destruct Hit as (coeffs & m & Hfit & _ & Hmax & ->).
  apply fit_interval in Hfit. destruct Hfit as (a & b & _ & ->).
  rewrite Forall_forall in Hcells.
  destruct (Hcells s Hs) as (p' & Hev & Hd & _).
  assert (p' = p) by (rewrite Hev in Hp; simpl in Hp; congruence). subst p'.
  assert (Hact : act s = signed upper (target_function self [p]))
    by (rewrite Hev; reflexivity).
  destruct (maximum_upper_bound _ Hmax) as [_ Hub].
  specialize (Hub _ (in_map (min_diffs self 1 _) _ _ Hs)).
  set (c0 := b - (a * ((lo + hi) / 2) + 0)) in *.
  assert (Hmin : - bound_diff [a; c0] s <= min_diffs self 1 [a; c0] s).
  { unfold min_diffs. apply Rmin_glb.
    - unfold diffs.
      assert (0 <= (1 + 1) * L1 self * (cell_diam s / 2)) by nra. lra.
    - unfold diffs2.
      pose proof (norm_nonneg (zipWith Rminus (removelast [a; c0]) (grad s))) as Hn.
      assert (0 <= norm (zipWith Rminus (removelast [a; c0]) (grad s)) * (cell_diam s / 2))
        by (apply Rmult_le_pos; lra).
      assert (0 <= 0.5 * L2 self * (cell_diam s / 2) ^ 2).
      { apply Rmult_le_pos; [lra | apply pow2_ge_0]. }
      lra. }
  unfold bound_diff, dot, sum in Hmin. rewrite Hp, Hact in Hmin.
  cbn [removelast last app zipWith fold_right] in *.
  destruct upper; unfold dot, sum; cbn [signed map zipWith fold_right] in *; lra.
Qed.

(** X10: on an interval of positive width, with [L1] and [L2] non-negative,
    the returned lines hold at every centre of the working set they were
    certified on, whatever the values of the target function and the
    solver: the upper line is not below the target there and, when the
    callables return new arrays, the lower line is not above it. *)
Theorem bounds_hold_at_sample_centres (self : OptimalLinearBounder) (fuel : nat)
    (lo hi : R) (lower upper : list R) :
  lo < hi -> 0 <= L1 self -> 0 <= L2 self ->
  find_optimal_bounds self fuel [(lo, hi)] = Ret (lower, upper) ->
  (returns_new_arrays self = true ->
   exists samples,
     working_set self [(lo, hi)] false [1] samples
     /\ forall s p, In s samples -> point s = [p] ->
          dot lower [p; 1] <= target_function self [p])
  /\ (exists samples,
        working_set self [(lo, hi)] true [1] samples
        /\ forall s p, In s samples -> point s = [p] ->
             target_function self [p] <= dot upper [p; 1]).
Proof.
  intros Hlt HL1 HL2 Hret. unfold find_optimal_bounds in Hret.
  destruct (width_check _); [| discriminate].
  destruct (_bound_one_side self fuel [(lo, hi)] false) as [cl | e |] eqn:Hlo;
    cbn [bind] in Hret; try discriminate.
  destruct (_bound_one_side self fuel [(lo, hi)] true) as [cu | e |] eqn:Hup;
    cbn [bind] in Hret; try discriminate.
  injection Hret as <- <-.
  destruct (@side_holds_at_centres self fuel lo hi true cu eq_refl Hlt HL1 HL2 Hup)
    as (su & Hwu & Hu).
  split.
  - intros Hnew.
    destruct (@side_holds_at_centres self fuel lo hi false cl Hnew Hlt HL1 HL2 Hlo)
      as (sl & Hwl & Hl).
    exists sl. split; [exact Hwl |]. intros s p Hs Hp.
    specialize (Hl s p Hs Hp). cbn [signed] in Hl. lra.
  - exists su. split; [exact Hwu |]. intros s p Hs Hp.
    exact (Hu s p Hs Hp).
Qed.

Lemma bounds_hold_at_sample_centres_witness :
  exists lower upper,
    find_optimal_bounds steep_bounder 1 [(0, 3)] = Ret (lower, upper)
    /\ exists samples,
         working_set steep_bounder [(0, 3)] true [1] samples
         /\ forall s p, In s samples -> point s = [p] ->
              target_function steep_bounder [p] <= dot upper [p; 1].
Proof.
  destruct (steep_one_side false) as (ml & _ & Hlo).
  destruct (steep_one_side true) as (mu & _ & Hup).
  assert (Hret : find_optimal_bounds steep_bounder 1 [(0, 3)]
                 = Ret (map (fun c => c * -1) [100; -50 + ml], [100; -50 + mu])).
  { unfold find_optimal_bounds. rewrite width_check_0_3, Hlo, Hup. reflexivity. }
  eexists. eexists. split; [exact Hret |].
  refine (proj2 (@bounds_hold_at_sample_centres steep_bounder 1 0 3
                   (map (fun c => c * -1) [100; -50 + ml]) [100; -50 + mu]
                   _ _ _ Hret)); simpl; lra.
Defined.

(** ** Sign symmetry of the facade *)

Lemma evaluate_negate_target_lower (self : OptimalLinearBounder) (pd : list R * R) :
  evaluate (negate_target self) false pd = evaluate self true pd.
Proof.
  unfold evaluate, sample_at, signed; simpl. f_equal.
  - lra.
  - rewrite map_map. apply map_ext. intros x; lra.
Qed.

Lemma loop_negate_target_lower (self : OptimalLinearBounder) bound G ratio fuel :
  forall samples,
    loop (negate_target self) bound false G ratio fuel samples
    = res_map (map Ropp) (loop self bound true G ratio fuel samples).
Proof.
  induction fuel as [| fuel IH]; intros samples; [reflexivity |].
  cbn [loop]. unfold iteration.
  change (_find_discrete_upper_bound (negate_target self))
    with (_find_discrete_upper_bound self).
  destruct (_find_discrete_upper_bound self bound _ _) as [coeffs | e |];
    cbn [bind res_map]; try reflexivity.
  change (holds (negate_target self)) with (holds self).
  change (min_diffs (negate_target self)) with (min_diffs self).
  destruct (forallb _ _).
  - destruct (maximum _) as [m | e |]; cbn [bind res_map]; try reflexivity.
    f_equal. apply map_ext. intros x; lra.
  - cbn [bind]. rewrite <- IH. f_equal. unfold subdivide. f_equal.
    apply flat_map_ext. intros offs. apply map_ext. intros s.
    apply evaluate_negate_target_lower.
Qed.

Lemma bound_one_side_negate_target (self : OptimalLinearBounder) fuel bound upper :
  pure_side self (negb upper) = true ->
  _bound_one_side (negate_target self) fuel bound upper
  = res_map (map Ropp) (_bound_one_side self fuel bound (negb upper)).
Proof.
  intros Hpure. unfold _bound_one_side.
  destruct (_get_G_bound bound) as [G | e |]; cbn [bind res_map]; try reflexivity.
  change (initial_number_of_points (negate_target self))
    with (initial_number_of_points self).
  destruct (_sample_points_regularly _ _) as [[[pts ds] ratio] | e |];
    cbn [bind res_map]; try reflexivity.
  destruct (_ <? _)%nat; [| reflexivity].
  destruct upper; cbn [negb] in *.
  - rewrite (map_ext _ _ (fun pd => evaluate_negate_target self pd Hpure)).
    apply loop_negate_target, Hpure.
  - rewrite (map_ext _ _ (evaluate_negate_target_lower self)).
    apply loop_negate_target_lower.
Qed.

Lemma map_Ropp_inj (u v : list R) : map Ropp u = map Ropp v -> u = v.
Proof.
  revert v; induction u as [| x u IH]; intros [| y v] H; try discriminate;
    [reflexivity |].
  simpl in H. injection H as Hxy Huv. f_equal; [lra | apply IH, Huv].
Qed.

(** X12: for callables that return new arrays, negating the target
    function swaps and negates the two returned lines:
    [find_optimal_bounds] returns [(lower, upper)] for [f] exactly when it
    returns [(-upper, -lower)] for [-f] with gradient [-f']. *)
Theorem facade_sign_symmetry (self : OptimalLinearBounder) (fuel : nat)
    (bound : region) (lower upper : list R) :
  returns_new_arrays self = true ->
  find_optimal_bounds (negate_target self) fuel bound
    = Ret (map Ropp upper, map Ropp lower)
  <-> find_optimal_bounds self fuel bound = Ret (lower, upper).
Proof.
  intros Hnew.
  unfold find_optimal_bounds. destruct (width_check bound); [| split; discriminate].
  rewrite (@bound_one_side_negate_target self fuel bound false eq_refl).
  rewrite (@bound_one_side_negate_target self fuel bound true Hnew). cbn [negb].
  destruct (_bound_one_side self fuel bound false) as [cl | e |];
    destruct (_bound_one_side self fuel bound true) as [cu | e' |];
    cbn [bind res_map]; split; try discriminate.
  - intros H; injection H as Hu Hl.
    apply map_Ropp_inj in Hu, Hl. subst. reflexivity.
  - intros H; injection H as <- <-. reflexivity.
Qed.

(** ** How far the result is from the last fit *)

(** X13: a returned vector is the last discrete fit with its intercept
    moved by less than [eps]: it is [(slope, c_0 + m)] for the coefficients
    [(slope, c_0)] fitted on the final working set and some [m < eps],
    negated as a whole on the lower side. *)
Theorem result_within_eps_of_fit (self : OptimalLinearBounder) (fuel : nat)
    (bound : region) (upper : bool) (c : list R) :
  _bound_one_side self fuel bound upper = Ret c ->
  exists ratio final coeffs m,
    working_set self bound upper ratio final
    /\ _find_discrete_upper_bound self bound (map point final) (map act final)
       = Ret coeffs
    /\ m < eps self
    /\ c = (if upper then removelast coeffs ++ [last coeffs 0 + m]
            else map (fun x => x * -1) (removelast coeffs ++ [last coeffs 0 + m])).
Proof.
  intros Hret. apply bound_one_side_final in Hret.
  destruct Hret as (ratio & final & Hws & Hit).
  apply iteration_inl in Hit. destruct Hit as (coeffs & m & Hfit & Hall & Hmax & ->).
  exists ratio, final, coeffs, m.
  split; [exact Hws |]. split; [exact Hfit |]. split; [| reflexivity].
  destruct (maximum_upper_bound _ Hmax) as [Hin _].
  apply in_map_iff in Hin. destruct Hin as (s & <- & Hs).
  rewrite forallb_forall in Hall. specialize (Hall s Hs).
  unfold holds in Hall. apply Rltb_spec in Hall. exact Hall.
Qed.

Lemma result_within_eps_of_fit_witness :
  exists c ratio final coeffs m,
    _bound_one_side flat_bounder 1 [(0, 3)] true = Ret c
    /\ working_set flat_bounder [(0, 3)] true ratio final
    /\ _find_discrete_upper_bound flat_bounder [(0, 3)] (map point final) (map act final)
       = Ret coeffs
    /\ m < eps flat_bounder
    /\ c = removelast coeffs ++ [last coeffs 0 + m].
Proof.
  destruct (flat_one_side true) as (c & Hc).
  destruct (result_within_eps_of_fit _ _ _ _ Hc)
    as (ratio & final & coeffs & m & Hws & Hfit & Hm & Heq).
  exists c, ratio, final, coeffs, m. auto.
Defined.

Lemma find_optimal_bounds_exceptions_witness :
  find_optimal_bounds flat_bounder 1 unit_square = Raise Assert_G_not_implemented.
Proof.
  apply (proj2 (find_optimal_bounds_exceptions flat_bounder 1 unit_square)).
  split; [| discriminate].
  unfold width_check, unit_square, width, width_tolerance. cbn [forallb fst snd].
  rewrite !Rltb_true by lra. reflexivity.
Defined.

(** ** The negation in place on the lower side *)

Lemma initial_working_set (self : OptimalLinearBounder) (upper : bool) (lo hi : R) :
  lo < hi -> (1 < initial_number_of_points self)%Z ->
  working_set self [(lo, hi)] upper [1] (initial_samples self upper lo hi).
Proof.
  intros Hlt HN.
  pose proof (sampler_interval Hlt HN) as Hs. cbv zeta in Hs.
  unfold initial_samples. rewrite <- map_map, <- combine_map_repeat.
  apply working_initial with (G := 1); [reflexivity | exact Hs |].
  rewrite length_map, length_seq. apply Nat.ltb_lt. cbn [length]. lia.
Qed.

Lemma iteration_certified (self : OptimalLinearBounder) bound upper G ratio
    samples coeffs (M : R) :
  _find_discrete_upper_bound self bound (map point samples) (map act samples)
    = Ret coeffs ->
  (forall s, In s samples -> min_diffs self G coeffs s < eps self) ->
  (exists s, In s samples /\ min_diffs self G coeffs s = M) ->
  (forall s, In s samples -> min_diffs self G coeffs s <= M) ->
  iteration self bound upper G ratio samples
  = Ret (inl (if upper then removelast coeffs ++ [last coeffs 0 + M]
              else map (fun c => c * -1) (removelast coeffs ++ [last coeffs 0 + M]))).
Proof.
  intros Hfit Hall (s0 & Hs0 & HM) Hub.
  destruct (maximum_spec (l := map (min_diffs self G coeffs) samples))
    as (m & Hmax & Hin & Hubm).
  { destruct samples; [destruct Hs0 | discriminate]. }
  assert (Hm : m = M).
  { apply Rle_antisym.
    - apply in_map_iff in Hin. destruct Hin as (s & <- & Hs). apply Hub, Hs.
    - rewrite <- HM. apply Hubm, in_map, Hs0. }
  unfold iteration. rewrite Hfit. cbn [bind].
  replace (forallb (holds self G coeffs) samples) with true.
  - rewrite Hmax, Hm. reflexivity.
  - symmetry. apply forallb_forall. intros s Hs.
    unfold holds. apply Rltb_true, Hall, Hs.
Qed.

(** The three samples the lower side starts with on [[-3, 0]] for
    [lambda x: x]: the centres have changed sign with the values. *)
Lemma identity_lower_samples (e : R) :
  initial_samples (identity_bounder e) false (-3) 0
  = [ {| point := [5 / 2]; cell_diam := 1; act := 5 / 2; grad := [-1] |};
      {| point := [3 / 2]; cell_diam := 1; act := 3 / 2; grad := [-1] |};
      {| point := [1 / 2]; cell_diam := 1; act := 1 / 2; grad := [-1] |} ].
Proof.
  unfold initial_samples, evaluate, identity_bounder.
  cbn [target_function gradient initial_number_of_points].
  change (Z.to_nat 3) with 3%nat. cbn [seq map fst snd negate_at nth]. simpl INR.
  repeat (f_equal; try lra).
Qed.

(** The same function written so that it computes a new array keeps its
    centres. *)
Lemma identity_copy_lower_samples (e : R) :
  initial_samples (identity_copy_bounder e) false (-3) 0
  = [ {| point := [-5 / 2]; cell_diam := 1; act := 5 / 2; grad := [-1] |};
      {| point := [-3 / 2]; cell_diam := 1; act := 3 / 2; grad := [-1] |};
      {| point := [-1 / 2]; cell_diam := 1; act := 1 / 2; grad := [-1] |} ].
Proof.
  unfold initial_samples, evaluate, identity_copy_bounder.
  cbn [target_function gradient initial_number_of_points].
  change (Z.to_nat 3) with 3%nat. cbn [seq map fst snd nth]. simpl INR.
  repeat (f_equal; try lra).
Qed.

Lemma identity_upper_samples (e : R) :
  initial_samples (identity_bounder e) true (-3) 0
  = [ {| point := [-5 / 2]; cell_diam := 1; act := -5 / 2; grad := [1] |};
      {| point := [-3 / 2]; cell_diam := 1; act := -3 / 2; grad := [1] |};
      {| point := [-1 / 2]; cell_diam := 1; act := -1 / 2; grad := [1] |} ].
Proof.
  unfold initial_samples, evaluate, sample_at, signed, identity_bounder.
  cbn [target_function gradient initial_number_of_points call call_gradient].
  change (Z.to_nat 3) with 3%nat. cbn [seq map fst snd nth]. simpl INR.
  repeat (f_equal; try lra).
Qed.

Ltac eval_Rmax :=
  repeat match goal with
         | |- context [Rmax ?a ?b] =>
             first [ rewrite (Rmax_left a b) by lra
                   | rewrite (Rmax_right a b) by lra ]
         end.

Ltac eval_fit :=
  unfold _find_discrete_upper_bound;
  cbn [discrete_solver eps center_of map point act fst snd identity_bounder
       identity_copy_bounder negate_target];
  unfold unit_slope_solver;
  cbn [zipWith hd length Nat.eqb removelast last app fold_right bind map];
  unfold sum; cbn [fold_right]; eval_Rmax.

Lemma identity_lower_fit (e : R) :
  _find_discrete_upper_bound (identity_bounder e) [(-3, 0)]
    (map point (initial_samples (identity_bounder e) false (-3) 0))
    (map act (initial_samples (identity_bounder e) false (-3) 0))
  = Ret [1; 0].
Proof.
  rewrite identity_lower_samples. eval_fit.
  f_equal. f_equal. f_equal. lra.
Qed.

Lemma pair_of_coefficients (a b a' b' : R) : a = a' -> b = b' -> [a; b] = [a'; b'].
Proof. intros -> ->. reflexivity. Qed.

Ltac eval_margin :=
  unfold min_diffs, diffs, diffs2, bound_diff, dot, sum;
  cbn [removelast last zipWith fold_right point act grad cell_diam L1 L2
       identity_bounder identity_copy_bounder negate_target];
  rewrite norm_singleton_abs;
  repeat match goal with
         | |- context [Rabs ?a] =>
             first [ rewrite (Rabs_pos_eq a) by lra
                   | rewrite (Rabs_left a) by lra ]
         end;
  repeat match goal with
         | |- context [Rmin ?a ?b] =>
             first [ rewrite (Rmin_left a b) by lra
                   | rewrite (Rmin_right a b) by lra ]
         end.

Lemma identity_lower_margins (e : R) (s : sample) :
  In s (initial_samples (identity_bounder e) false (-3) 0) ->
  min_diffs (identity_bounder e) 1 [1; 0] s = 1.
Proof.
  rewrite identity_lower_samples.
  intros [<- | [<- | [<- | []]]]; eval_margin; lra.
Qed.

Lemma identity_lower_side :
  _bound_one_side (identity_bounder 2) 1 [(-3, 0)] false = Ret [-1; -1].
Proof.
  rewrite bound_one_side_interval by (try lra; simpl; lia).
  cbn [loop].
  rewrite (@iteration_certified (identity_bounder 2) [(-3, 0)] false 1 [1] _ [1; 0] 1).
  - cbn [bind removelast last app map]. f_equal.
    apply pair_of_coefficients; lra.
  - apply identity_lower_fit.
  - intros s Hs. rewrite (@identity_lower_margins 2 s Hs). simpl. lra.
  - rewrite identity_lower_samples. eexists. split; [left; reflexivity |].
    eval_margin; lra.
  - intros s Hs. rewrite (@identity_lower_margins 2 s Hs). lra.
Qed.

Lemma identity_copy_lower_fit (e : R) :
  _find_discrete_upper_bound (identity_copy_bounder e) [(-3, 0)]
    (map point (initial_samples (identity_copy_bounder e) false (-3) 0))
    (map act (initial_samples (identity_copy_bounder e) false (-3) 0))
  = Ret [1; 5].
Proof.
  rewrite identity_copy_lower_samples. eval_fit.
  f_equal. f_equal. f_equal. lra.
Qed.

Lemma identity_copy_lower_side :
  _bound_one_side (identity_copy_bounder 2) 1 [(-3, 0)] false = Ret [-1; -6].
Proof.
  rewrite bound_one_side_interval by (try lra; simpl; lia).
  cbn [loop].
  rewrite (@iteration_certified (identity_copy_bounder 2) [(-3, 0)] false 1 [1] _ [1; 5] 1).
  - cbn [bind removelast last app map]. f_equal.
    apply pair_of_coefficients; lra.
  - apply identity_copy_lower_fit.
  - rewrite identity_copy_lower_samples.
    intros s [<- | [<- | [<- | []]]]; eval_margin; simpl; lra.
  - rewrite identity_copy_lower_samples. eexists. split; [left; reflexivity |].
    eval_margin; lra.
  - rewrite identity_copy_lower_samples.
    intros s [<- | [<- | [<- | []]]]; eval_margin; lra.
Qed.

Lemma negated_identity_upper_side :
  _bound_one_side (negate_target (identity_bounder 2)) 1 [(-3, 0)] true = Ret [1; 6].
Proof.
  change (negate_target (identity_bounder 2))
    with (negate_target (identity_copy_bounder 2)).
  rewrite (@bound_one_side_negate_target (identity_copy_bounder 2) 1 [(-3, 0)] true eq_refl).
  cbn [negb]. rewrite identity_copy_lower_side. cbn [res_map map]. f_equal.
  apply pair_of_coefficients; lra.
Qed.

Lemma identity_upper_side :
  _bound_one_side (identity_bounder 2) 1 [(-3, 0)] true = Ret [1; 0].
Proof.
  rewrite bound_one_side_interval by (try lra; simpl; lia).
  cbn [loop].
  assert (Hfit : _find_discrete_upper_bound (identity_bounder 2) [(-3, 0)]
            (map point (initial_samples (identity_bounder 2) true (-3) 0))
            (map act (initial_samples (identity_bounder 2) true (-3) 0))
          = Ret [1; 0]).
  { rewrite identity_upper_samples. eval_fit. f_equal. f_equal. f_equal. lra. }
  rewrite (@iteration_certified (identity_bounder 2) [(-3, 0)] true 1 [1] _ [1; 0] 0).
  - cbn [bind removelast last app map]. f_equal.
    apply pair_of_coefficients; lra.
  - exact Hfit.
  - rewrite identity_upper_samples.
    intros s [<- | [<- | [<- | []]]]; eval_margin; simpl; lra.
  - rewrite identity_upper_samples. eexists. split; [left; reflexivity |].
    eval_margin; lra.
  - rewrite identity_upper_samples.
    intros s [<- | [<- | [<- | []]]]; eval_margin; lra.
Qed.

Lemma identity_lower_uncertified (s : sample) :
  In s (initial_samples (identity_bounder (1 / 2)) false (-3) 0) ->
  holds (identity_bounder (1 / 2)) 1 [1; 0] s = false.
Proof.
  intros Hs. unfold holds. rewrite (@identity_lower_margins (1 / 2) s Hs).
  apply Rltb_false. simpl. lra.
Qed.

Lemma identity_lower_children :
  iteration (identity_bounder (1 / 2)) [(-3, 0)] false 1 [1]
    (initial_samples (identity_bounder (1 / 2)) false (-3) 0)
  = Ret (inr
      [ {| point := [-9 / 4]; cell_diam := 1 / 2; act := -9 / 4; grad := [-1] |};
        {| point := [-5 / 4]; cell_diam := 1 / 2; act := -5 / 4; grad := [-1] |};
        {| point := [-1 / 4]; cell_diam := 1 / 2; act := -1 / 4; grad := [-1] |};
        {| point := [-11 / 4]; cell_diam := 1 / 2; act := -11 / 4; grad := [-1] |};
        {| point := [-7 / 4]; cell_diam := 1 / 2; act := -7 / 4; grad := [-1] |};
        {| point := [-3 / 4]; cell_diam := 1 / 2; act := -3 / 4; grad := [-1] |} ]).
Proof.
  unfold iteration. rewrite identity_lower_fit. cbn [bind].
  pose proof identity_lower_uncertified as Hh.
  rewrite identity_lower_samples in *.
  cbn [forallb]. rewrite !Hh by (simpl; auto). cbn [andb].
  unfold subdivide. cbn [filter]. rewrite !Hh by (simpl; auto).
  cbn [negb app length]. rewrite subcube_offsets_1.
  unfold child, offset_to_diam_ratio, evaluate, identity_bounder.
  cbn [flat_map map app target_function gradient point cell_diam fst snd zipWith
       negate_at nth].
  repeat (f_equal; try lra).
Qed.

(** C2, on the code: the lower side negates in place the array the target
    function returned.  For [lambda x: x] that array is the array of the
    points, so on [[-3, 0]] with [eps = 2] the lower bound comes out as
    [(-1, -1)], while the upper bound of the negated function is [(1, 6)],
    whose negation [(-1, -6)] is also what the lower side returns for the
    same function written so that it computes a new array. *)
Theorem sign_symmetry_lost_in_place :
  _bound_one_side (identity_bounder 2) 1 [(-3, 0)] false = Ret [-1; -1]
  /\ _bound_one_side (negate_target (identity_bounder 2)) 1 [(-3, 0)] true
     = Ret [1; 6]
  /\ _bound_one_side (identity_copy_bounder 2) 1 [(-3, 0)] false = Ret [-1; -6].
Proof.
  split; [apply identity_lower_side |].
  split; [apply negated_identity_upper_side | apply identity_copy_lower_side].
Qed.

(** C5, on the code: for [lambda x: x] on the lower side the centre of a
    new child is negated in place together with its value.  The three
    parents stored at 5/2, 3/2 and 1/2 with diameter 1 are replaced by
    children stored at -9/4, -5/4, -1/4, -11/4, -7/4 and -3/4, none of
    which is a parent's centre moved by a quarter of its diameter, and the
    value a child carries is the target at its centre, not its negation. *)
Theorem children_negated_in_place :
  let parents := initial_samples (identity_bounder (1 / 2)) false (-3) 0 in
  map point parents = [[5 / 2]; [3 / 2]; [1 / 2]]
  /\ map cell_diam parents = [1; 1; 1]
  /\ exists children,
       iteration (identity_bounder (1 / 2)) [(-3, 0)] false 1 [1] parents
       = Ret (inr children)
       /\ map point children
          = [[-9 / 4]; [-5 / 4]; [-1 / 4]; [-11 / 4]; [-7 / 4]; [-3 / 4]]
       /\ Forall (fun s => act s = target_function (identity_bounder (1 / 2)) (point s))
                 children
       /\ forall s sigma, In s parents -> sigma = 1 \/ sigma = -1 ->
            ~ In (offset_center [1] [sigma] s) (map point children).
Proof.
  cbv zeta. rewrite identity_lower_children, identity_lower_samples.
  split; [reflexivity |]. split; [reflexivity |].
  eexists. split; [reflexivity |]. split; [reflexivity |]. split.
  - repeat constructor.
  - intros s sigma Hs Hsigma Hin.
    unfold offset_center in Hin.
    destruct Hs as [<- | [<- | [<- | []]]];
      cbn [map point cell_diam zipWith] in Hin;
      destruct Hsigma as [-> | ->];
      repeat (destruct Hin as [Hin | Hin]; [injection Hin as Hin; lra |]);
      destruct Hin.
Qed.

(** C6, on the code: for [lambda x: x] the working set the lower side
    starts with on [[-3, 0]] is the grid negated in place: its cells are
    centred at 5/2, 3/2 and 1/2, so the point -2 of the region lies in no
    cell, and the point 2, which is not in the region, lies in one. *)
Theorem negated_grid_leaves_region :
  exists samples,
    working_set (identity_bounder 2) [(-3, 0)] false [1] samples
    /\ map point samples = [[5 / 2]; [3 / 2]; [1 / 2]]
    /\ in_region [(-3, 0)] [-2]
    /\ ~ (exists s, In s samples /\ in_cell [1] s [-2])
    /\ (exists s, In s samples /\ in_cell [1] s [2])
    /\ ~ in_region [(-3, 0)] [2].
Proof.
  exists (initial_samples (identity_bounder 2) false (-3) 0).
  split; [apply initial_working_set; [lra | simpl; lia] |].
  rewrite identity_lower_samples.
  split; [reflexivity |].
  split; [constructor; [simpl; lra | constructor] |].
  split; [| split].
  - intros (s & Hs & Hcell). unfold in_cell in Hcell.
    destruct Hs as [<- | [<- | [<- | []]]];
      cbn [point cell_diam combine] in Hcell;
      inversion Hcell as [| xa pr xs prs Hx _]; subst;
      cbn [fst snd] in Hx; apply Rabs_le_iff in Hx; lra.
  - eexists. split; [left; reflexivity |].
    unfold in_cell. cbn [point cell_diam combine].
    constructor; [| constructor]. cbn [fst snd]. apply Rabs_le_iff. lra.
  - intros Hin. inversion Hin as [| xa b xs bs Hx _]; subst.
    cbn [fst snd] in Hx. lra.
Qed.

Lemma width_check_m3_0 : width_check [(-3, 0)] = true.
Proof.
  unfold width_check, width, width_tolerance; simpl.
  rewrite Rltb_true by lra. reflexivity.
Qed.

(** X16: for the identity written [lambda x: x], with its gradient 1,
    [L1 = 1], [L2 = 0] and a solver that fits lines of slope 1, every
    hypothesis on the function and on the solver's slope holds, yet on
    [[-3, 0]] the returned lower line [-x - 1] is above the function at
    -3: the negation in place has moved the samples out of the region. *)
Theorem identity_lower_bound_unsound :
  (forall t, gradient (identity_bounder 2) [t] = [1]
             /\ derivable_pt_lim (fun u => target_function (identity_bounder 2) [u]) t 1)
  /\ (forall x y,
        Rabs (target_function (identity_bounder 2) [x]
              - target_function (identity_bounder 2) [y])
        <= L1 (identity_bounder 2) * Rabs (x - y))
  /\ (forall x y : R, Rabs (1 - 1) <= L2 (identity_bounder 2) * Rabs (x - y))
  /\ (forall points values,
        Rabs (nth 0 (discrete_solver (identity_bounder 2) points values
                       (eps (identity_bounder 2))) 0)
        <= L1 (identity_bounder 2))
  /\ find_optimal_bounds (identity_bounder 2) 1 [(-3, 0)] = Ret ([-1; -1], [1; 0])
  /\ target_function (identity_bounder 2) [-3] < dot [-1; -1] [-3; 1].
Proof.
  split; [| split; [| split; [| split; [| split]]]].
  - intros t. split; [reflexivity |]. simpl. apply derivable_pt_lim_id.
  - intros x y. simpl. lra.
  - intros x y. simpl. replace (1 - 1) with 0 by lra. rewrite Rabs_R0. lra.
  - intros points values. simpl. rewrite Rabs_R1. lra.
  - unfold find_optimal_bounds.
    rewrite width_check_m3_0, identity_lower_side, identity_upper_side. reflexivity.
  - unfold dot, sum. simpl. lra.
Qed.

(** X17: the lower bound of a negated target is the negated upper bound of
    the target, whatever the callables: the upper side negates nothing, and
    the negated target computes new arrays. *)
Theorem lower_of_negated_target (self : OptimalLinearBounder) (fuel : nat)
    (bound : region) :
  _bound_one_side (negate_target self) fuel bound false
  = res_map (map Ropp) (_bound_one_side self fuel bound true).
Proof. apply (@bound_one_side_negate_target self fuel bound false). reflexivity. Qed.

Lemma facade_sign_symmetry_witness :
  exists lower upper,
    find_optimal_bounds flat_bounder 1 [(0, 3)] = Ret (lower, upper)
    /\ find_optimal_bounds (negate_target flat_bounder) 1 [(0, 3)]
       = Ret (map Ropp upper, map Ropp lower).
Proof.
  destruct flat_find_optimal_bounds as (lower & upper & Hret).
  exists lower, upper. split; [exact Hret |].
  apply (proj2 (@facade_sign_symmetry flat_bounder 1 [(0, 3)] lower upper eq_refl)).
  exact Hret.
Defined.
